(** * modem-ctl.c: boot sequencing and PSI upload of the XMM6260 loader

    A shallow embedding of [modem-ctl.c].  The program is a single,
    synchronous flow of system calls; it is modelled in a small monad
    that threads a [world]: the answers the operating system will give
    (one queue per system call, in program order), the program's four
    global handles, and the trace of what the program has done so far.

    Machine integers are [Z] with the wrap-around written out
    ([to_size_t], [to_u16], [to_u8]); [size_t] is 32 bits wide, as on the
    ARMv7 phones the loader is written for.  Bytes are [Z] in [0, 256). *)

From Stdlib Require Import ZArith List String Lia Bool.
Import ListNotations.
Open Scope Z_scope.

(** ** Machine integers *)

Definition SIZE_MAX1 : Z := 2 ^ 32.

Definition to_size_t (z : Z) : Z := z mod SIZE_MAX1.
Definition to_u16 (z : Z) : Z := z mod 2 ^ 16.
Definition to_u8 (z : Z) : Z := z mod 2 ^ 8.

(** ** Memory *)

(** Byte-addressed memory; an [unsigned char] load keeps the low 8 bits. *)
Definition memory := Z -> Z.

Definition load8 (m : memory) (a : Z) : Z := to_u8 (m a).

(** The [n] bytes stored from address [a] on. *)
Fixpoint load_bytes (m : memory) (a : Z) (n : nat) : list Z :=
  match n with
  | O => []
  | S n' => load8 m a :: load_bytes m (a + 1) n'
  end.

(** ** Constants of the source *)

Definition RADIO_IMAGE : string := "/dev/block/mmcblk0p8".
Definition NVDATA_IMAGE : string := "/efs/nv_data.bin".
Definition LINK_PM : string := "/dev/link_pm".
Definition BOOT_DEV : string := "/dev/umts_boot0".
Definition I9100_EHCI_PATH : string :=
  "/sys/devices/platform/s5p-ehci/ehci_power".

Definition RADIO_MAP_SIZE : Z := Z.shiftl 16 20.

(** [MAP_FAILED] is [(void * ) -1]; [NULL] is the zero-initialised value of
    a static pointer. *)
Definition MAP_FAILED : Z := -1.
Definition NULL : Z := 0.

Definition XMM_PSI_MAGIC : Z := 0x30.

(** The ioctl request codes come from [modem_prj.h]; only their names are
    used here. *)
Inductive ioctl_code : Type :=
| IOCTL_MODEM_ON
| IOCTL_MODEM_OFF
| IOCTL_LINK_CONTROL_ENABLE
| IOCTL_LINK_CONTROL_ACTIVE
| IOCTL_LINK_CONNECTED.

(** ** Firmware components and their locations *)

Inductive xmm6260_image : Type :=
| PSI
| EBL
| SECURE_IMAGE
| FIRMWARE
| NVDATA.

Record xmm6260_offset : Type := mk_offset {
  offset : Z;
  length : Z
}.

Definition i9100_radio_parts (c : xmm6260_image) : xmm6260_offset :=
  match c with
  | PSI => mk_offset 0 0xf000
  | EBL => mk_offset 0xf000 0x19000
  | SECURE_IMAGE => mk_offset 0x9ff800 0x800
  | FIRMWARE => mk_offset 0x28000 0x9d8000
  | NVDATA => mk_offset 0x6406e00 (Z.shiftl 2 20)
  end.

Definition all_components : list xmm6260_image :=
  [PSI; EBL; SECURE_IMAGE; FIRMWARE; NVDATA].

(** ** The PSI header *)

Record psi_header_t : Type := mk_psi_header {
  magic : Z;      (* uint8_t  *)
  hdr_length : Z; (* uint16_t *)
  padding : Z     (* uint8_t  *)
}.

(** The initialiser of [hdr] in [send_PSI]: [.magic = XMM_PSI_MAGIC],
    [.length = length] (a [size_t] converted to [uint16_t]), and the
    member that is not named is zero. *)
Definition psi_header_init (len : Z) : psi_header_t :=
  mk_psi_header (to_u8 XMM_PSI_MAGIC) (to_u16 len) 0.

(** The packed struct as the four bytes [write] sees (little endian). *)
Definition psi_header_bytes (h : psi_header_t) : list Z :=
  [magic h; hdr_length h mod 256; hdr_length h / 256; padding h].

(** ** Observable events *)

Inductive log_level : Type := LogE | LogD | LogI.

Inductive event : Type :=
| EvOpen (path : string) (ret : Z)
| EvFstat (fd ret : Z)
| EvMmap (len fd ret : Z)
| EvIoctl (fd : Z) (code : ioctl_code) (arg : option Z) (ret : Z)
| EvWrite (fd count : Z) (accepted : list Z) (ret : Z)
| EvSelect (fd ret : Z)
| EvRead (fd size : Z) (got : list Z) (ret : Z)
| EvClose (fd : Z)
| EvMunmap (addr len : Z)
| EvSleep (usec : Z)
| EvLog (level : log_level) (fmt : string).

(** ** The world *)

(** What the operating system answers: the results of the successive calls
    of each system call, in program order.  A [read] answers [None] for an
    error and [Some bytes] for the bytes that are ready. *)
Record script : Type := mk_script {
  opens : list Z;
  fstats : list Z;
  mmaps : list Z;
  ioctls : list Z;
  writes : list Z;
  selects : list Z;
  reads : list (option (list Z))
}.

(** The file-scope variables of the program. *)
Record globals : Type := mk_globals {
  link_fd : Z;
  boot_fd : Z;
  radio_fd : Z;
  radio_data : Z
}.

Record world : Type := mk_world {
  env : script;
  glob : globals;
  mem : memory;
  indet : Z;          (* the value an uninitialised object happens to hold *)
  trace : list event
}.

(** Static storage is zero-initialised. *)
Definition initial_globals : globals := mk_globals 0 0 0 NULL.

Definition initial_world (e : script) (m : memory) (junk : Z) : world :=
  mk_world e initial_globals m junk [].

Definition with_env (f : script -> script) (w : world) : world :=
  mk_world (f (env w)) (glob w) (mem w) (indet w) (trace w).

Definition with_glob (f : globals -> globals) (w : world) : world :=
  mk_world (env w) (f (glob w)) (mem w) (indet w) (trace w).

Definition with_trace (f : list event -> list event) (w : world) : world :=
  mk_world (env w) (glob w) (mem w) (indet w) (f (trace w)).

(** ** The monad *)

(** A computation ends with a value, with a jump to the function's [fail]
    label (carrying the value [ret] holds at the jump), or it is still
    waiting for an answer when the script ends. *)
Inductive outcome (A : Type) : Type :=
| Val (a : A)
| Jump (r : Z)
| Starved.

Arguments Val {A} a.
Arguments Jump {A} r.
Arguments Starved {A}.

Definition M (A : Type) : Type := world -> outcome A * world.

Definition pure {A} (a : A) : M A := fun w => (Val a, w).

Definition bind {A B} (m : M A) (f : A -> M B) : M B :=
  fun w =>
    match m w with
    | (Val a, w') => f a w'
    | (Jump r, w') => (Jump r, w')
    | (Starved, w') => (Starved, w')
    end.

Declare Scope prog_scope.
Delimit Scope prog_scope with prog.
Notation "x <- m ;; k" := (bind m (fun x => k))
  (at level 61, m at next level, right associativity) : prog_scope.
Notation "m ;; k" := (bind m (fun _ => k))
  (at level 61, right associativity) : prog_scope.
Open Scope prog_scope.

Definition goto_fail {A} (r : Z) : M A := fun w => (Jump r, w).

(** A function whose [fail] label is [return ret]. *)
Definition returning (m : M Z) : M Z :=
  fun w =>
    match m w with
    | (Jump r, w') => (Val r, w')
    | other => other
    end.

(** A body followed by its [fail] label, reached by falling through or by
    [goto fail] alike. *)
Definition then_fail_label {A B} (m : M A) (k : M B) : M B :=
  fun w =>
    match m w with
    | (Val _, w') => k w'
    | (Jump _, w') => k w'
    | (Starved, w') => (Starved, w')
    end.

Definition gets {A} (f : world -> A) : M A := fun w => (Val (f w), w).

Definition modify (f : world -> world) : M unit := fun w => (Val tt, f w).

Definition emit (e : event) : M unit :=
  modify (with_trace (fun t => t ++ [e])).

(** Take the next answer of one queue. *)
Definition pop {X} (get : script -> list X) (set : list X -> script -> script)
  : M X :=
  fun w =>
    match get (env w) with
    | [] => (Starved, w)
    | x :: rest => (Val x, with_env (set rest) w)
    end.

Definition set_opens (l : list Z) (s : script) : script :=
  mk_script l (fstats s) (mmaps s) (ioctls s) (writes s) (selects s) (reads s).
Definition set_fstats (l : list Z) (s : script) : script :=
  mk_script (opens s) l (mmaps s) (ioctls s) (writes s) (selects s) (reads s).
Definition set_mmaps (l : list Z) (s : script) : script :=
  mk_script (opens s) (fstats s) l (ioctls s) (writes s) (selects s) (reads s).
Definition set_ioctls (l : list Z) (s : script) : script :=
  mk_script (opens s) (fstats s) (mmaps s) l (writes s) (selects s) (reads s).
Definition set_writes (l : list Z) (s : script) : script :=
  mk_script (opens s) (fstats s) (mmaps s) (ioctls s) l (selects s) (reads s).
Definition set_selects (l : list Z) (s : script) : script :=
  mk_script (opens s) (fstats s) (mmaps s) (ioctls s) (writes s) l (reads s).
Definition set_reads (l : list (option (list Z))) (s : script) : script :=
  mk_script (opens s) (fstats s) (mmaps s) (ioctls s) (writes s) (selects s) l.

(** ** System calls *)

Definition sys_open (path : string) : M Z :=
  r <- pop opens set_opens ;;
  emit (EvOpen path r) ;;
  pure r.

Definition sys_fstat (fd : Z) : M Z :=
  r <- pop fstats set_fstats ;;
  emit (EvFstat fd r) ;;
  pure r.

Definition sys_mmap (len fd : Z) : M Z :=
  r <- pop mmaps set_mmaps ;;
  emit (EvMmap len fd r) ;;
  pure r.

Definition sys_ioctl (fd : Z) (code : ioctl_code) (arg : option Z) : M Z :=
  r <- pop ioctls set_ioctls ;;
  emit (EvIoctl fd code arg r) ;;
  pure r.

(** [write(fd, buf, count)] with the [count] bytes of the buffer given as a
    list: the device accepts the first [r] of them when the answer [r] is
    positive, and none otherwise. *)
Definition sys_write (fd : Z) (buf : list Z) : M Z :=
  r <- pop writes set_writes ;;
  emit (EvWrite fd (Z.of_nat (List.length buf)) (firstn (Z.to_nat r) buf) r) ;;
  pure r.

Definition sys_select (fd : Z) : M Z :=
  r <- pop selects set_selects ;;
  emit (EvSelect fd r) ;;
  pure r.

(** [read(fd, buf, size)]: on an error the result is -1 and nothing is
    stored; otherwise at most [size] of the ready bytes are stored and
    counted, and the bytes that did not fit stay ready for the next call. *)
Definition sys_read (fd : Z) (size : Z) : M (Z * list Z) :=
  a <- pop reads set_reads ;;
  match a with
  | None =>
      emit (EvRead fd size [] (-1)) ;;
      pure (-1, [])
  | Some ready =>
      let got := firstn (Z.to_nat size) ready in
      let rest := skipn (Z.to_nat size) ready in
      let n := Z.of_nat (List.length got) in
      match rest with
      | [] => pure tt
      | _ :: _ =>
          modify (with_env (fun s => set_reads (Some rest :: reads s) s))
      end ;;
      emit (EvRead fd size got n) ;;
      pure (n, got)
  end.

Definition sys_close (fd : Z) : M unit := emit (EvClose fd).
Definition sys_munmap (addr len : Z) : M unit := emit (EvMunmap addr len).
Definition usleep (usec : Z) : M unit := emit (EvSleep usec).

(** The logging macros; the arguments of the format are not modelled. *)
Definition _e (fmt : string) : M unit := emit (EvLog LogE fmt).
Definition _d (fmt : string) : M unit := emit (EvLog LogD fmt).
Definition _i (fmt : string) : M unit := emit (EvLog LogI fmt).

(** Reading an object that was never initialised. *)
Definition indeterminate : M Z := gets indet.

(** [buf] with its first bytes overwritten by [got]. *)
Definition store_bytes (buf got : list Z) : list Z :=
  got ++ skipn (List.length got) buf.

(** The script has no answer left for a call that is being made. *)
Definition starve {A} : M A := fun w => (Starved, w).

Definition get_link_fd : M Z := gets (fun w => link_fd (glob w)).
Definition get_boot_fd : M Z := gets (fun w => boot_fd (glob w)).
Definition get_radio_fd : M Z := gets (fun w => radio_fd (glob w)).
Definition get_radio_data : M Z := gets (fun w => radio_data (glob w)).

Definition set_link_fd (v : Z) : M unit :=
  modify (with_glob (fun g =>
    mk_globals v (boot_fd g) (radio_fd g) (radio_data g))).
Definition set_boot_fd (v : Z) : M unit :=
  modify (with_glob (fun g =>
    mk_globals (link_fd g) v (radio_fd g) (radio_data g))).
Definition set_radio_fd (v : Z) : M unit :=
  modify (with_glob (fun g =>
    mk_globals (link_fd g) (boot_fd g) v (radio_data g))).
Definition set_radio_data (v : Z) : M unit :=
  modify (with_glob (fun g =>
    mk_globals (link_fd g) (boot_fd g) (radio_fd g) v)).

(** ** IO helper functions *)

Definition c_ioctl (fd : Z) (code : ioctl_code) (data : option Z) : M Z :=
  ret <- match data with
         | None => sys_ioctl fd code None
         | Some d => sys_ioctl fd code (Some d)
         end ;;
  (if ret <? 0
   then _e "ioctl fd=%d code=%lx failed: %s"
   else _d "ioctl fd=%d code=%lx OK") ;;
  pure ret.

Definition read_select (fd : Z) (timeout : Z) : M Z := sys_select fd.

(** [receive] returns the result of [read] and the buffer as the call
    leaves it. *)
Definition receive (fd : Z) (buf : list Z) (size : Z) : M (Z * list Z) :=
  ret <- read_select fd 0 ;;
  if ret <? 0
  then
    _e "%s: failed to select the fd %d" ;;
    pure (ret, buf)
  else
    _d "%s: selected fd %d for %d" ;;
    p <- sys_read fd size ;;
    pure (fst p, store_bytes buf (snd p)).

(** [memcmp] over the first [n] bytes, compared as [unsigned char]: the
    difference of the first pair that differs.  C fixes only its sign. *)
Fixpoint memcmp (s1 s2 : list Z) (n : nat) : Z :=
  match n, s1, s2 with
  | S n', a :: s1', b :: s2' => if a =? b then memcmp s1' s2' n' else a - b
  | _, _, _ => 0
  end.

Definition expect_data (fd : Z) (data : list Z) (size : Z) : M Z :=
  junk <- indeterminate ;;
  let buf := repeat (to_u8 junk) (Z.to_nat size) in
  p <- receive fd buf size ;;
  let ret := fst p in
  let buf := snd p in
  if ret <? 0
  then
    _e "failed to receive data" ;;
    pure ret
  else
    let ret := memcmp buf data (Z.to_nat size) in
    (if negb (ret =? 0) then _d "received %02x" else pure tt) ;;
    pure ret.

(** ** I9100 specific implementation *)

Definition i9100_ehci_setpower (enabled : bool) : M Z :=
  ret0 <- indeterminate ;;
  _d "%s: enabled=%d" ;;
  ehci_fd <- sys_open I9100_EHCI_PATH ;;
  ret <- (if ehci_fd <? 0
          then
            _e "failed to open EHCI fd" ;;
            pure ret0
          else
            _d "opened EHCI %s: fd=%d" ;;
            ret <- sys_write ehci_fd [if enabled then 0x31 else 0x30] ;;
            (if ret <=? 0
             then _e "failed to set EHCI power"
             else _d "set EHCI power") ;;
            pure ret) ;;
  (if ehci_fd >=? 0 then sys_close ehci_fd else pure tt) ;;
  pure ret.

Definition i9100_link_set_active (enabled : bool) : M Z :=
  returning (
    let status := if enabled then 1 else 0 in
    fd <- get_link_fd ;;
    ret <- c_ioctl fd IOCTL_LINK_CONTROL_ENABLE (Some status) ;;
    (if ret <? 0
     then _d "failed to set link state to %d" ;; goto_fail ret
     else pure tt) ;;
    fd <- get_link_fd ;;
    ret <- c_ioctl fd IOCTL_LINK_CONTROL_ACTIVE (Some status) ;;
    (if ret <? 0
     then _d "failed to set link active to %d" ;; goto_fail ret
     else pure tt) ;;
    pure 0).

(** The body of [while (1)]; each round takes one answer of [ioctl], so
    the number of answers left bounds the rounds the script can serve. *)
Fixpoint wait_link_loop (fuel : nat) : M unit :=
  match fuel with
  | O => starve
  | S fuel' =>
      fd <- get_link_fd ;;
      ret <- c_ioctl fd IOCTL_LINK_CONNECTED None ;;
      if ret <? 0 then goto_fail ret
      else if ret =? 1 then pure tt
      else usleep (50 * 1000) ;; wait_link_loop fuel'
  end.

Definition i9100_wait_link_ready : M Z :=
  returning (
    rounds <- gets (fun w => S (List.length (ioctls (env w)))) ;;
    wait_link_loop rounds ;;
    pure 0).

Definition xmm6260_setpower (enabled : bool) : M Z :=
  fd <- get_boot_fd ;;
  if enabled
  then c_ioctl fd IOCTL_MODEM_ON None
  else c_ioctl fd IOCTL_MODEM_OFF None.

(** [while (length--) crc ^= *ptr++;] *)
Fixpoint crc_loop (m : memory) (ptr : Z) (n : nat) (crc : Z) : Z :=
  match n with
  | O => crc
  | S n' => crc_loop m (ptr + 1) n' (to_u8 (Z.lxor crc (load8 m ptr)))
  end.

Definition calculateCRC (m : memory) (data offset length : Z) : Z :=
  crc_loop m (data + offset) (Z.to_nat length) 0.

(** The payload loop of [send_PSI].  [written] is a [size_t], so the
    result of [write] is converted before it is tested and added. *)
Fixpoint psi_write_loop (fuel : nat) (fd ret start end_ offset : Z) : M unit :=
  match fuel with
  | O => starve
  | S fuel' =>
      if start <? end_
      then
        m <- gets mem ;;
        data <- get_radio_data ;;
        r <- sys_write fd
               (load_bytes m (data + start)
                  (Z.to_nat (to_size_t (end_ - offset)))) ;;
        let written := to_size_t r in
        if written <? 0
        then _d "failed to write PSI chunk" ;; goto_fail ret
        else psi_write_loop fuel' fd ret (to_size_t (start + written))
               end_ offset
      else pure tt
  end.

(** [for (int i = 0; i < 22; i++)]: [n] rounds are left. *)
Fixpoint ack_loop (n : nat) (fd ret : Z) : M unit :=
  match n with
  | O => pure tt
  | S n' =>
      junk <- indeterminate ;;
      p <- receive fd [to_u8 junk] 1 ;;
      if fst p <? 1
      then _d "failed to read ACK byte %d" ;; goto_fail ret
      else _d "%02x " ;; ack_loop n' fd ret
  end.

Definition send_PSI (fd : Z) : M Z :=
  returning (
    let length := length (i9100_radio_parts PSI) in
    let offset := offset (i9100_radio_parts PSI) in
    let hdr := psi_header_init length in
    ret <- sys_write fd (psi_header_bytes hdr) ;;
    (if negb (ret =? 4)
     then _d "%s: failed to write header, ret %d" ;; goto_fail ret
     else pure tt) ;;
    let start := offset in
    let end_ := to_size_t (length + start) in
    _d "PSI image [%08x %08x %08x %08x]" ;;
    rounds <- gets (fun w => S (List.length (writes (env w)))) ;;
    psi_write_loop rounds fd ret start end_ offset ;;
    m <- gets mem ;;
    data <- get_radio_data ;;
    let crc := calculateCRC m data offset length in
    ret <- sys_write fd [crc] ;;
    (if ret <? 1
     then _d "failed to write CRC" ;; goto_fail ret
     else pure tt) ;;
    ack_loop 22 fd ret ;;
    let ack := [0x1] in
    ret <- expect_data fd ack 1 ;;
    (if ret <? 0
     then _d "failed to wait for first ACK" ;; goto_fail ret
     else pure tt) ;;
    ret <- expect_data fd ack 1 ;;
    (if ret <? 0
     then _d "failed to wait for second ACK" ;; goto_fail ret
     else pure tt) ;;
    pure 0).

(** ** main *)

(** The bytes of ["ATAT"]. *)
Definition ATAT : list Z := [0x41; 0x54; 0x41; 0x54].

(** The statements of [main] before the [fail] label. *)
Definition main_body : M unit :=
  fd <- sys_open RADIO_IMAGE ;;
  set_radio_fd fd ;;
  (if fd <? 0
   then _e "failed to open radio firmware" ;; goto_fail 0
   else _d "opened radio image %s, fd=%d") ;;
  fd <- get_radio_fd ;;
  st <- sys_fstat fd ;;
  (if st <? 0
   then _e "failed to stat radio image, error %s" ;; goto_fail 0
   else pure tt) ;;
  fd <- get_radio_fd ;;
  p <- sys_mmap RADIO_MAP_SIZE fd ;;
  set_radio_data p ;;
  (if p =? MAP_FAILED
   then _e "failed to mmap radio image, error %s" ;; goto_fail 0
   else pure tt) ;;
  fd <- sys_open BOOT_DEV ;;
  set_boot_fd fd ;;
  (if fd <? 0
   then _e "failed to open boot device" ;; goto_fail 0
   else _d "opened boot device %s, fd=%d") ;;
  fd <- sys_open LINK_PM ;;
  set_link_fd fd ;;
  (if fd <? 0
   then _e "failed to open link device" ;; goto_fail 0
   else _d "opened link device %s, fd=%d") ;;
  (* Disable the hardware to ensure consistent state *)
  r <- xmm6260_setpower false ;;
  (if r <? 0
   then _e "failed to disable xmm6260 power"
   else _d "disabled xmm6260 power") ;;
  r <- i9100_link_set_active false ;;
  (if r <? 0
   then _e "failed to disable I9100 HSIC link"
   else _d "disabled I9100 HSIC link") ;;
  r <- i9100_ehci_setpower false ;;
  (if r <? 0
   then _e "failed to disable I9100 EHCI"
   else _d "disabled I9100 EHCI") ;;
  (* Now, initialize the hardware *)
  r <- i9100_link_set_active true ;;
  (if r <? 0
   then _e "failed to enable I9100 HSIC link"
   else _d "enabled I9100 HSIC link") ;;
  r <- i9100_ehci_setpower true ;;
  (if r <? 0
   then _e "failed to enable I9100 EHCI" ;; goto_fail 0
   else _d "enabled I9100 EHCI") ;;
  r <- xmm6260_setpower true ;;
  (if r <? 0
   then _e "failed to enable xmm6260 power" ;; goto_fail 0
   else _d "enabled xmm6260 power") ;;
  r <- i9100_wait_link_ready ;;
  (if r <? 0
   then _e "failed to wait for link to get ready" ;; goto_fail 0
   else _d "link ready") ;;
  usleep (500 * 1000) ;;
  (* Now, actually load the firmware *)
  fd <- get_boot_fd ;;
  r <- sys_write fd ATAT ;;
  (if negb (r =? 4)
   then _e "failed to write ATAT to boot socket" ;; goto_fail 0
   else _d "written ATAT to boot socket, waiting for ACK") ;;
  usleep (500 * 1000) ;;
  junk <- indeterminate ;;
  let buf := [to_u8 junk; to_u8 junk] in
  fd <- get_boot_fd ;;
  p <- receive fd (firstn 1 buf) 1 ;;
  let buf := snd p ++ skipn 1 buf in
  (if fst p <? 0
   then _e "failed to receive bootloader ACK" ;; goto_fail 0
   else pure tt) ;;
  fd <- get_boot_fd ;;
  p <- receive fd (skipn 1 buf) 1 ;;
  let buf := firstn 1 buf ++ snd p in
  (if fst p <? 0
   then _e "failed to receive chip IP ACK" ;; goto_fail 0
   else pure tt) ;;
  _i "receive ID: [%02x %02x]" ;;
  fd <- get_boot_fd ;;
  r <- send_PSI fd ;;
  (if r <? 0
   then _e "failed to upload PSI" ;; goto_fail 0
   else pure tt) ;;
  let buf := [0x00; 0xAA] in
  fd <- get_boot_fd ;;
  r <- expect_data fd buf 2 ;;
  (if r <? 0
   then _e "failed to receive PSI ACK" ;; goto_fail 0
   else pure tt).

(** The statements after the [fail] label. *)
Definition cleanup : M unit :=
  p <- get_radio_data ;;
  (if negb (p =? MAP_FAILED) then sys_munmap p RADIO_MAP_SIZE else pure tt) ;;
  fd <- get_link_fd ;;
  (if fd >=? 0 then sys_close fd else pure tt) ;;
  fd <- get_radio_fd ;;
  (if fd >=? 0 then sys_close fd else pure tt) ;;
  fd <- get_boot_fd ;;
  (if fd >=? 0 then sys_close fd else pure tt).

Definition main : M Z :=
  then_fail_label main_body (cleanup ;; pure 0).

(** * Observations and the words of the specification *)

(** Does the component lie inside the [RADIO_MAP_SIZE] bytes that [main]
    maps? *)
Definition in_mapping (c : xmm6260_image) : bool :=
  offset (i9100_radio_parts c) + length (i9100_radio_parts c)
    <=? RADIO_MAP_SIZE.

(** The checksum as the specification words it: [crc = 0; for each byte b
    in payload: crc ^= b]. *)
Definition xor_all (payload : list Z) : Z :=
  fold_left (fun crc b => Z.lxor crc b) payload 0.

Definition is_byte (b : Z) : Prop := 0 <= b < 256.

(** The byte range of the first-stage loader in the mapped image. *)
Definition psi_range (w : world) : list Z :=
  load_bytes (mem w)
    (radio_data (glob w) + offset (i9100_radio_parts PSI))
    (Z.to_nat (length (i9100_radio_parts PSI))).

Definition is_write (e : event) : bool :=
  match e with
  | EvWrite _ _ _ _ => true
  | _ => false
  end.

(** A [write] of a single byte. *)
Definition single_write (e : event) : bool :=
  match e with
  | EvWrite _ count _ _ => count =? 1
  | _ => false
  end.

(** The bytes a descriptor accepted, in the order they were written. *)
Definition sent_on (fd : Z) (t : list event) : list Z :=
  flat_map (fun e =>
              match e with
              | EvWrite fd' _ accepted _ => if fd' =? fd then accepted else []
              | _ => []
              end) t.

Definition reads_of (t : list event) : list event :=
  filter (fun e =>
            match e with
            | EvRead _ _ _ _ => true
            | _ => false
            end) t.

(** The chunks a descriptor accepted, one per [write]. *)
Definition accepted_on (fd : Z) (t : list event) : list (list Z) :=
  flat_map (fun e =>
              match e with
              | EvWrite fd' _ accepted _ =>
                  if fd' =? fd then [accepted] else []
              | _ => []
              end) t.

(** The messages logged with [_e]. *)
Definition errors (t : list event) : list string :=
  flat_map (fun e =>
              match e with
              | EvLog LogE fmt => [fmt]
              | _ => []
              end) t.

(** The descriptors closed and the mappings removed. *)
Definition releases (t : list event) : list event :=
  filter (fun e =>
            match e with
            | EvClose _ | EvMunmap _ _ => true
            | _ => false
            end) t.

(** The script has run out of answers for some system call. *)
Definition exhausted (w : world) : Prop :=
  opens (env w) = [] \/ fstats (env w) = [] \/ mmaps (env w) = [] \/
  ioctls (env w) = [] \/ writes (env w) = [] \/ selects (env w) = [] \/
  reads (env w) = [].

(** ** Program logic *)

(** Every state [m] can end in, started from a state in [P], is in [Q]. *)
Definition reaches {A} (P : world -> Prop) (m : M A) (Q : world -> Prop)
  : Prop :=
  forall w, P w -> Q (snd (m w)).

(** [w'] is [w] after more events, all of them in [P]; the memory, the
    globals and the indeterminate value are the same. *)
Definition grows (P : event -> Prop) (w w' : world) : Prop :=
  mem w' = mem w /\ glob w' = glob w /\ indet w' = indet w /\
  exists t, trace w' = trace w ++ t /\ Forall P t.

Definition emits {A} (P : event -> Prop) (m : M A) : Prop :=
  forall w, grows P w (snd (m w)).

(** A computation that starves, started in [w], leaves an exhausted
    script. *)
Definition safe_at {A} (m : M A) (w : world) : Prop :=
  fst (m w) = Starved -> exhausted (snd (m w)).

Definition safe {A} (m : M A) : Prop :=
  forall w, fst (m w) = Starved -> exhausted (snd (m w)).

(** ** The run of [send_PSI] around the checksum *)

Definition not_write (e : event) : Prop := is_write e = false.
Definition not_single_write (e : event) : Prop := single_write e = false.

(** The checksum [write] of a [send_PSI] started in [w0], as an event. *)
Definition crc_event (fd : Z) (w0 : world) (r : Z) : event :=
  EvWrite fd 1 (firstn (Z.to_nat r) [xor_all (psi_range w0)]) r.

(** No one-byte [write] since [w0]. *)
Definition before_crc (w0 w : world) : Prop := grows not_single_write w0 w.

(** Since [w0]: events without a one-byte [write], the checksum [write],
    events without any [write]. *)
Definition after_crc (fd : Z) (w0 w : world) : Prop :=
  exists t r post,
    trace w = trace w0 ++ t ++ crc_event fd w0 r :: post /\
    Forall not_single_write t /\ Forall not_write post.

Definition around_crc (fd : Z) (w0 w : world) : Prop :=
  before_crc w0 w \/ after_crc fd w0 w.

(** ** Worlds used as examples *)

Definition demo_memory : memory := fun a => a mod 251.

(** A memory that holds the bytes 1, 2, 3 from address 100 on. *)
Definition memory_123 : memory := fun a => a - 99.

(** The answers of a run in which every call succeeds: the link reports
    connected at the second poll, the chip answers the handshake with
    [0x0A 0x0B], sends 22 bytes, confirms with [0x01 0x01] and accepts the
    PSI with [0x00 0xAA]. *)
Definition good_script : script :=
  mk_script
    [3; 4; 5; 6; 6]
    [0]
    [0x40000000]
    [0; 0; 0; 0; 0; 0; 0; 1]
    [1; 1; 4; 4; 0xF000; 1]
    (repeat 1 27%nat)
    [Some ([0x0A; 0x0B] ++ repeat 7 22%nat ++ [0x01; 0x01; 0x00; 0xAA])].

Definition good_world : world := initial_world good_script demo_memory 0.

(** The state [main] is in when it calls [send_PSI], with the answers that
    are left: those of [write] and the bytes the chip sends. *)
Definition psi_world (wr : list Z) (rx : list Z) : world :=
  mk_world
    (mk_script [] [] [] [] wr (repeat 1 24%nat) [Some rx])
    (mk_globals 5 4 3 0x40000000)
    demo_memory 0 [].

(** The first payload [write] accepts one byte, the second one everything
    it is offered. *)
Definition partial_write_world : world :=
  psi_world [4; 1; 0xF000; 1] (repeat 7 22%nat ++ [0x01; 0x01]).

(** The payload [write] fails. *)
Definition failed_write_world : world :=
  psi_world [4; -1; 1] (repeat 7 22%nat ++ [0x01; 0x01]).

(** The chip confirms the checksum with [0x02 0x09]. *)
Definition wrong_confirm_world : world :=
  psi_world [4; 0xF000; 1] (repeat 7 22%nat ++ [0x02; 0x09]).

(** The chip confirms the checksum with [0x00 0x01]. *)
Definition zero_confirm_world : world :=
  psi_world [4; 0xF000; 1] (repeat 7 22%nat ++ [0x00; 0x01]).

(** The final acknowledgment is [0x01 0x00] instead of [0x00 0xAA]. *)
Definition wrong_final_ack_world : world :=
  initial_world
    (mk_script [3; 4; 5; 6; 6] [0] [0x40000000] [0; 0; 0; 0; 0; 0; 0; 1]
       [1; 1; 4; 4; 0xF000; 1] (repeat 1 27%nat)
       [Some ([0x0A; 0x0B] ++ repeat 7 22%nat ++ [0x01; 0x01; 0x01; 0x00])])
    demo_memory 0.

(** The final acknowledgment is [0x00 0x00]. *)
Definition low_final_ack_world : world :=
  initial_world
    (mk_script [3; 4; 5; 6; 6] [0] [0x40000000] [0; 0; 0; 0; 0; 0; 0; 1]
       [1; 1; 4; 4; 0xF000; 1] (repeat 1 27%nat)
       [Some ([0x0A; 0x0B] ++ repeat 7 22%nat ++ [0x01; 0x01; 0x00; 0x00])])
    demo_memory 0.

(** The [write] that switches the EHCI power on accepts no byte. *)
Definition ehci_zero_write_world : world :=
  initial_world
    (mk_script [3; 4; 5; 6; 6] [0] [0x40000000] [0; 0; 0; 0; 0; 0; 0; 1]
       [1; 0; 4; 4; 0xF000; 1] (repeat 1 27%nat)
       [Some ([0x0A; 0x0B] ++ repeat 7 22%nat ++ [0x01; 0x01; 0x00; 0xAA])])
    demo_memory 0.

(** The EHCI power file cannot be opened when the power is switched on. *)
Definition ehci_no_open_world : world :=
  initial_world
    (mk_script [3; 4; 5; 6; -1] [0] [0x40000000] [0; 0; 0; 0; 0; 0; 0; 1]
       [1; 4; 4; 0xF000; 1] (repeat 1 27%nat)
       [Some ([0x0A; 0x0B] ++ repeat 7 22%nat ++ [0x01; 0x01; 0x00; 0xAA])])
    demo_memory 0.

(** The [write] that switches the EHCI power on fails with -1. *)
Definition ehci_failed_write_world : world :=
  initial_world
    (mk_script [3; 4; 5; 6; 6] [0] [0x40000000] [0; 0; 0; 0; 0]
       [1; -1] [] [])
    demo_memory 0.

(** The upload as it goes when every call succeeds. *)
Definition good_psi_world : world :=
  psi_world [4; 0xF000; 1] (repeat 7 22%nat ++ [0x01; 0x01]).

Definition good_psi_trace : list event :=
  trace (snd (send_PSI 4 good_psi_world)).

(** Every step of the bring-up that [main] does not treat as fatal fails:
    switching the chip off, deactivating the link, switching the EHCI
    power off and activating the link. *)
Definition nonfatal_failures_world : world :=
  initial_world
    (mk_script [3; 4; 5; 6; 6] [0] [0x40000000] [-1; -1; -1; 0; 1]
       [-1; 1; 4; 4; 0xF000; 1] (repeat 1 27%nat)
       [Some ([0x0A; 0x0B] ++ repeat 7 22%nat ++ [0x01; 0x01; 0x00; 0xAA])])
    demo_memory 0.

(** Switching the chip on fails. *)
Definition modem_on_fails_world : world :=
  initial_world
    (mk_script [3; 4; 5; 6; 6] [0] [0x40000000] [0; 0; 0; 0; 0; -1]
       [1; 1] [] [])
    demo_memory 0.

(** The radio image cannot be opened. *)
Definition no_image_world : world :=
  initial_world (mk_script [-1] [] [] [] [] [] []) demo_memory 0.

(** The boot device cannot be opened. *)
Definition no_boot_device_world : world :=
  initial_world (mk_script [3; -1] [0] [0x40000000] [] [] [] []) demo_memory 0.

(** The first [read] of the handshake returns 0: no byte arrived. *)
Definition empty_handshake_world : world :=
  initial_world
    (mk_script [3; 4; 5; 6; 6] [0] [0x40000000] [0; 0; 0; 0; 0; 0; 0; 1]
       [1; 1; 4; 4; 0xF000; 1] (repeat 1 27%nat)
       [Some []; Some ([0x0B] ++ repeat 7 22%nat ++ [0x01; 0x01; 0x00; 0xAA])])
    demo_memory 0x5A.

(** Only three bytes of ["ATAT"] are accepted. *)
Definition short_sync_world : world :=
  initial_world
    (mk_script [3; 4; 5; 6; 6] [0] [0x40000000] [0; 0; 0; 0; 0; 0; 0; 1]
       [1; 1; 3] [] [])
    demo_memory 0.

(** * Further observations *)

(** The events that [w'] has recorded after those of [w]. *)
Definition events_since (w w' : world) : list event :=
  skipn (List.length (trace w)) (trace w').


(** The requests made with [ioctl], with their results. *)
Definition ioctls_of (t : list event) : list (ioctl_code * Z) :=
  flat_map (fun e =>
              match e with
              | EvIoctl _ code _ r => [(code, r)]
              | _ => []
              end) t.

(** The message of the branch [written < 0] of the payload loop. *)
Definition is_chunk_failure (e : event) : bool :=
  match e with
  | EvLog LogD fmt => String.eqb fmt "failed to write PSI chunk"
  | _ => false
  end.

Definition not_chunk_failure (e : event) : Prop := is_chunk_failure e = false.

(** A memory that holds the bytes 1, 2, 3 and their checksum 0 from
    address 100 on. *)
Definition memory_1230 : memory :=
  fun a => if a =? 103 then 0 else a - 99.

(** A state in which the link device is open, with the answers of [ioctl]
    that are left. *)
Definition link_world (answers : list Z) : world :=
  mk_world (mk_script [] [] [] answers [] [] [])
    (mk_globals 5 4 3 0x40000000) demo_memory 0 [].

(** A state with the answers of [open] and [write] that are left. *)
Definition file_world (op wr : list Z) : world :=
  mk_world (mk_script op [] [] [] wr [] [])
    (mk_globals 5 4 3 0x40000000) demo_memory 0 [].

(** A state with the answers of [select] and the chunks of [read] that are
    left. *)
Definition rx_world (sel : list Z) (rd : list (option (list Z))) : world :=
  mk_world (mk_script [] [] [] [] [] sel rd)
    (mk_globals 5 4 3 0x40000000) demo_memory 0 [].

(** The queue of chunks after a [read] of [size] bytes has taken the first
    of them from the chunk [ready]. *)
Definition after_read (size : Z) (ready : list Z)
  (rest : list (option (list Z))) : list (option (list Z)) :=
  match skipn (Z.to_nat size) ready with
  | [] => rest
  | b :: more => Some (b :: more) :: rest
  end.

(** The event of a [read] of one byte that delivers [b]. *)
Definition byte_read (fd b : Z) : event := EvRead fd 1 [b] 1.

(** A [write] of the payload loop: [count] bytes offered on [fd]. *)
Definition offers (fd count : Z) (e : event) : Prop :=
  match e with
  | EvWrite fd' count' _ _ => fd' = fd /\ count' = count
  | _ => False
  end.

(** Twenty-two bytes that are no acknowledgment of anything, and one more,
    as the channel delivers them: the first three at once, then one byte
    for each [read], the last two together. *)
Definition drain_chunks : list (list Z) :=
  [ [0xDE; 0xAD; 0xBE]; [0xEF]; [0]; [1]; [2]; [3]; [4]; [5]; [6]; [7];
    [8]; [9]; [10]; [11]; [12]; [13]; [14]; [15]; [16]; [255; 0x01] ].

Definition drain_world : world :=
  rx_world (repeat 1 22%nat ++ [1]) (map Some drain_chunks).

(** ** Order of the bring-up and the handshake *)

(** Traffic of the boot channel: a [select], a [read], or a [write] of
    other than one byte (the EHCI power file is only ever offered one). *)
Definition handshake_event (e : event) : bool :=
  match e with
  | EvSelect _ _ => true
  | EvRead _ _ _ _ => true
  | EvWrite _ count _ _ => negb (count =? 1)
  | _ => false
  end.

Definition quiet (e : event) : Prop := handshake_event e = false.

(** The chip was switched on: the request succeeded. *)
Definition seen_power_on (t : list event) : Prop :=
  exists fd r, In (EvIoctl fd IOCTL_MODEM_ON None r) t /\ 0 <= r.

(** The link reported that it is connected. *)
Definition seen_link_ready (t : list event) : Prop :=
  exists fd, In (EvIoctl fd IOCTL_LINK_CONNECTED None 1) t.

(** [m] only adds events, all of them in [P]. *)
Definition traces {A} (P : event -> Prop) (m : M A) : Prop :=
  forall w, exists t, trace (snd (m w)) = trace w ++ t /\ Forall P t.

(** Since [w0]: no traffic on the boot channel. *)
Definition phase_quiet (w0 w : world) : Prop :=
  exists t, trace w = trace w0 ++ t /\ Forall quiet t.

(** Since [w0]: no traffic on the boot channel, and the chip is on. *)
Definition phase_powered (w0 w : world) : Prop :=
  exists t, trace w = trace w0 ++ t /\ Forall quiet t /\ seen_power_on t.

(** Since [w0]: the chip was switched on and the link reported connected
    before any traffic on the boot channel. *)
Definition phase_ready (w0 w : world) : Prop :=
  exists t1 t2,
    trace w = trace w0 ++ t1 ++ t2 /\
    Forall quiet t1 /\ seen_power_on t1 /\ seen_link_ready t1.

Definition phase_any (w0 w : world) : Prop :=
  phase_quiet w0 w \/ phase_ready w0 w.

Definition short_sync_trace : list event :=
  trace (snd (main short_sync_world)).

(** ** An environment that gives up *)

(** Answers of failure for every call: -1, and no data for a [read]. *)
Definition failing_script (k : nat) : script :=
  mk_script (repeat (-1) k) (repeat (-1) k) (repeat (-1) k) (repeat (-1) k)
    (repeat (-1) k) (repeat (-1) k) (repeat None k).

Definition append_script (s e : script) : script :=
  mk_script (opens s ++ opens e) (fstats s ++ fstats e)
    (mmaps s ++ mmaps e) (ioctls s ++ ioctls e) (writes s ++ writes e)
    (selects s ++ selects e) (reads s ++ reads e).

(** The world [w], whose environment answers [k] more calls of each kind
    with a failure once the answers of [w] are used up. *)
Definition then_failing (k : nat) (w : world) : world :=
  with_env (fun s => append_script s (failing_script k)) w.

(** A queue that ends with at least [k] answers of failure. *)
Definition backed {X} (fail : X) (k : Z) (q : list X) : Prop :=
  exists l n, q = l ++ repeat fail n /\ k <= Z.of_nat n.

Definition supplied (k : Z) (w : world) : Prop :=
  backed (-1) k (opens (env w)) /\
  backed (-1) k (fstats (env w)) /\
  backed (-1) k (mmaps (env w)) /\
  backed (-1) k (ioctls (env w)) /\
  backed (-1) k (writes (env w)) /\
  backed (-1) k (selects (env w)) /\
  backed None k (reads (env w)).

(** [m] does not starve when every queue is backed by [c] failures more
    than it leaves. *)
Definition runs {A} (c : Z) (m : M A) : Prop :=
  forall k w,
    0 <= k -> supplied (c + k) w ->
    fst (m w) <> Starved /\ supplied k (snd (m w)).

(** * Properties *)

(** ** The offset table and the mapping *)

Lemma RADIO_MAP_SIZE_value : RADIO_MAP_SIZE = 0x1000000.
Proof. reflexivity. Qed.

(** C8, as stated, fails: the NVDATA entry of the table lies outside the
    mapped image (its offset alone is past the end of the mapping). *)
Lemma nvdata_outside_mapping :
  ~ offset (i9100_radio_parts NVDATA) + length (i9100_radio_parts NVDATA)
    <= RADIO_MAP_SIZE.
Proof.
  vm_compute. intros H. apply H. reflexivity.
Qed.

(** C8, amended: the entries of PSI, EBL, SECURE_IMAGE and FIRMWARE lie
    inside the [RADIO_MAP_SIZE] bytes of the mapping; the entry of NVDATA
    does not. *)
Theorem components_in_mapping :
  forall c : xmm6260_image,
    in_mapping c = match c with NVDATA => false | _ => true end.
Proof.
  intros c. destruct c; reflexivity.
Qed.

(** ** The PSI header *)

Lemma to_u16_small (z : Z) : 0 <= z <= 65535 -> to_u16 z = z.
Proof.
  intros Hz. unfold to_u16. apply Z.mod_small. lia.
Qed.

(** C4, as stated, fails: from the length 0x10000 the initialiser builds a
    header, and its length field is 0. *)
Lemma psi_header_init_truncates :
  psi_header_init 0x10000 = mk_psi_header 0x30 0 0.
Proof. reflexivity. Qed.

(** C4, amended: the header is magic 0x30, the component length reduced
    modulo 65536 and padding 0, for every length: nothing is checked and
    nothing fails.  The deployed length gives exactly 0xF000. *)
Theorem psi_header_init_spec :
  (forall len : Z,
     psi_header_init len = mk_psi_header 0x30 (len mod 65536) 0) /\
  psi_header_init (length (i9100_radio_parts PSI)) =
    mk_psi_header 0x30 0xF000 0.
Proof.
  split.
  - intros len. reflexivity.
  - reflexivity.
Qed.

(** ** The checksum *)

Lemma to_u8_is_byte (z : Z) : is_byte (to_u8 z).
Proof.
  unfold is_byte, to_u8. apply Z.mod_pos_bound. reflexivity.
Qed.

Lemma to_u8_byte (b : Z) : is_byte b -> to_u8 b = b.
Proof.
  intros Hb. unfold to_u8. apply Z.mod_small. exact Hb.
Qed.

(** The exclusive or of two bytes is a byte: no bit from position 8 on is
    set in either operand. *)
Lemma lxor_is_byte (a b : Z) : is_byte a -> is_byte b -> is_byte (Z.lxor a b).
Proof.
  unfold is_byte. intros Ha Hb.
  assert (Hnn : 0 <= Z.lxor a b) by (apply Z.lxor_nonneg; lia).
  split; [exact Hnn|].
  destruct (Z.eq_dec (Z.lxor a b) 0) as [E | NE]; [rewrite E; reflexivity|].
  change 256 with (2 ^ 8).
  apply Z.log2_lt_pow2; [lia|].
  assert (La : Z.log2 a < 8).
  { destruct (Z.eq_dec a 0) as [-> | Na]; [reflexivity|].
    apply Z.log2_lt_pow2; lia. }
  assert (Lb : Z.log2 b < 8).
  { destruct (Z.eq_dec b 0) as [-> | Nb]; [reflexivity|].
    apply Z.log2_lt_pow2; lia. }
  pose proof (Z.log2_lxor a b) as Hx.
  lia.
Qed.

Lemma load_bytes_are_bytes (m : memory) (n : nat) :
  forall a, Forall is_byte (load_bytes m a n).
Proof.
  induction n as [| n IH]; intros a; simpl.
  - constructor.
  - constructor; [apply to_u8_is_byte | apply IH].
Qed.

(** The loop of [calculateCRC] is the left fold of exclusive or over the
    bytes it walks. *)
Lemma crc_loop_fold (m : memory) (n : nat) :
  forall ptr crc,
    is_byte crc ->
    crc_loop m ptr n crc =
    fold_left (fun c b => Z.lxor c b) (load_bytes m ptr n) crc.
Proof.
  induction n as [| n IH]; intros ptr crc Hc; simpl.
  - reflexivity.
  - assert (Hx : is_byte (Z.lxor crc (load8 m ptr)))
      by (apply lxor_is_byte; [exact Hc | apply to_u8_is_byte]).
    rewrite (to_u8_byte _ Hx).
    apply IH. exact Hx.
Qed.

Lemma calculateCRC_xor_all (m : memory) (data off len : Z) :
  calculateCRC m data off len =
  xor_all (load_bytes m (data + off) (Z.to_nat len)).
Proof.
  unfold calculateCRC, xor_all.
  apply crc_loop_fold. unfold is_byte. lia.
Qed.

Lemma xor_all_is_byte (l : list Z) : Forall is_byte l -> is_byte (xor_all l).
Proof.
  unfold xor_all.
  assert (H : forall l c, is_byte c -> Forall is_byte l ->
            is_byte (fold_left (fun c b => Z.lxor c b) l c)).
  { clear l. induction l as [| b l IH]; intros c Hc Hl; simpl.
    - exact Hc.
    - inversion Hl; subst. apply IH; [apply lxor_is_byte|]; assumption. }
  intros Hl. apply H; [unfold is_byte; lia | exact Hl].
Qed.


(** ** Rules of the program logic *)

Section Rules.

Context {A B : Type}.

Lemma bind_val (m : M A) (f : A -> M B) (w w' : world) (a : A) :
  m w = (Val a, w') -> bind m f w = f a w'.
Proof. intros E. unfold bind. rewrite E. reflexivity. Qed.

Lemma bind_jump (m : M A) (f : A -> M B) (w w' : world) (r : Z) :
  m w = (Jump r, w') -> bind m f w = (Jump r, w').
Proof. intros E. unfold bind. rewrite E. reflexivity. Qed.

Lemma bind_starved (m : M A) (f : A -> M B) (w w' : world) :
  m w = (Starved, w') -> bind m f w = (Starved, w').
Proof. intros E. unfold bind. rewrite E. reflexivity. Qed.

(** The state after [bind m f] is the state after [m], or a state after
    some [f a] started there. *)
Lemma reaches_bind (P R Q : world -> Prop) (m : M A) (f : A -> M B) :
  reaches P m R ->
  (forall a, reaches R (f a) Q) ->
  (forall w, R w -> Q w) ->
  reaches P (bind m f) Q.
Proof.
  intros Hm Hf HRQ w HP.
  specialize (Hm w HP).
  unfold bind. destruct (m w) as [[a | r |] w1]; simpl in *.
  - apply Hf. exact Hm.
  - apply HRQ. exact Hm.
  - apply HRQ. exact Hm.
Qed.

Lemma safe_bind (m : M A) (f : A -> M B) :
  safe m -> (forall a, safe (f a)) -> safe (bind m f).
Proof.
  intros Hm Hf w. specialize (Hm w).
  unfold bind. destruct (m w) as [[a | r |] w1]; simpl in *.
  - apply Hf.
  - discriminate.
  - intros _. apply Hm. reflexivity.
Qed.

End Rules.

Lemma grows_refl (P : event -> Prop) (w : world) : grows P w w.
Proof.
  unfold grows. repeat split. exists []. split.
  - symmetry. apply app_nil_r.
  - constructor.
Qed.

Lemma grows_trans (P : event -> Prop) (w1 w2 w3 : world) :
  grows P w1 w2 -> grows P w2 w3 -> grows P w1 w3.
Proof.
  intros (Hm1 & Hg1 & Hi1 & t1 & Ht1 & F1) (Hm2 & Hg2 & Hi2 & t2 & Ht2 & F2).
  unfold grows. repeat split; try congruence.
  exists (t1 ++ t2). split.
  - rewrite Ht2, Ht1. symmetry. apply app_assoc.
  - apply Forall_app. split; assumption.
Qed.

Lemma grows_weaken (P Q : event -> Prop) (w w' : world) :
  (forall e, P e -> Q e) -> grows P w w' -> grows Q w w'.
Proof.
  intros HPQ (Hm & Hg & Hi & t & Ht & F).
  unfold grows. repeat split; try assumption.
  exists t. split; [assumption |].
  eapply Forall_impl; [| exact F]. exact HPQ.
Qed.

Section Emits.

Variable P : event -> Prop.

Lemma emits_pure {A} (a : A) : emits P (pure a).
Proof. intros w. apply grows_refl. Qed.

Lemma emits_gets {A} (f : world -> A) : emits P (gets f).
Proof. intros w. apply grows_refl. Qed.

Lemma emits_goto_fail {A} (r : Z) : emits P (@goto_fail A r).
Proof. intros w. apply grows_refl. Qed.

Lemma emits_starve {A} : emits P (@starve A).
Proof. intros w. apply grows_refl. Qed.

Lemma emits_emit (e : event) : P e -> emits P (emit e).
Proof.
  intros He w. unfold grows; simpl. repeat split.
  exists [e]. split; [reflexivity |]. constructor; [exact He | constructor].
Qed.

Lemma emits_pop {X} (get : script -> list X) set : emits P (pop get set).
Proof.
  intros w. unfold pop. destruct (get (env w)); simpl.
  - apply grows_refl.
  - unfold grows; simpl. repeat split. exists []. split.
    + symmetry. apply app_nil_r.
    + constructor.
Qed.

Lemma emits_with_env (f : script -> script) : emits P (modify (with_env f)).
Proof.
  intros w. unfold grows; simpl. repeat split. exists []. split.
  - symmetry. apply app_nil_r.
  - constructor.
Qed.

Lemma emits_bind {A B} (m : M A) (f : A -> M B) :
  emits P m -> (forall a, emits P (f a)) -> emits P (bind m f).
Proof.
  intros Hm Hf w. specialize (Hm w).
  unfold bind. destruct (m w) as [[a | r |] w1]; simpl in *.
  - eapply grows_trans; [exact Hm | apply Hf].
  - exact Hm.
  - exact Hm.
Qed.

Lemma emits_returning (m : M Z) : emits P m -> emits P (returning m).
Proof.
  intros Hm w. specialize (Hm w).
  unfold returning. destruct (m w) as [[a | r |] w1]; simpl in *; exact Hm.
Qed.

Lemma emits_if {A} (b : bool) (m1 m2 : M A) :
  emits P m1 -> emits P m2 -> emits P (if b then m1 else m2).
Proof. intros H1 H2. destruct b; assumption. Qed.

End Emits.

Lemma emits_weaken {A} (P Q : event -> Prop) (m : M A) :
  (forall e, P e -> Q e) -> emits P m -> emits Q m.
Proof.
  intros HPQ Hm w. eapply grows_weaken; [exact HPQ | apply Hm].
Qed.

(** Structural part of an [emits] proof, by the shape of the program:
    what is left are the events and the calls. *)
Ltac emits_step :=
  lazymatch goal with
  | |- emits _ (bind _ _) => apply emits_bind; [| intros ?]
  | |- emits _ (pure _) => apply emits_pure
  | |- emits _ (gets _) => apply emits_gets
  | |- emits _ (goto_fail _) => apply emits_goto_fail
  | |- emits _ starve => apply emits_starve
  | |- emits _ (pop _ _) => apply emits_pop
  | |- emits _ (modify (with_env _)) => apply emits_with_env
  | |- emits _ (returning _) => apply emits_returning
  | |- emits _ (if _ then _ else _) => apply emits_if
  | |- emits _ (emit _) => apply emits_emit
  end.

(** *** Events of the helper functions *)

Lemma not_write_not_single (e : event) : not_write e -> not_single_write e.
Proof.
  unfold not_write, not_single_write. destruct e; simpl; congruence.
Qed.

Create HintDb emits.

Ltac emits_auto :=
  repeat first
    [ emits_step
    | solve [auto with emits nocore]
    | reflexivity ].

Lemma sys_read_no_write (fd size : Z) : emits not_write (sys_read fd size).
Proof.
  unfold sys_read. emits_step; [emits_step |].
  destruct a as [ready |]; [| emits_auto].
  emits_step; [| emits_auto].
  destruct (skipn (Z.to_nat size) ready); emits_auto.
Qed.

#[local] Hint Resolve sys_read_no_write : emits.

Lemma receive_no_write (fd : Z) (buf : list Z) (size : Z) :
  emits not_write (receive fd buf size).
Proof.
  unfold receive, read_select, sys_select, _e, _d. emits_auto.
Qed.

#[local] Hint Resolve receive_no_write : emits.

Lemma expect_data_no_write (fd : Z) (data : list Z) (size : Z) :
  emits not_write (expect_data fd data size).
Proof.
  unfold expect_data, indeterminate, _e, _d. emits_auto.
Qed.

#[local] Hint Resolve expect_data_no_write : emits.

Lemma ack_loop_no_write (n : nat) (fd ret : Z) :
  emits not_write (ack_loop n fd ret).
Proof.
  induction n as [| n IH]; simpl; unfold indeterminate, _d; emits_auto.
Qed.

#[local] Hint Resolve ack_loop_no_write : emits.

Lemma load_bytes_length (m : memory) (n : nat) :
  forall a, List.length (load_bytes m a n) = n.
Proof.
  induction n as [| n IH]; intros a; simpl.
  - reflexivity.
  - f_equal. apply IH.
Qed.

Lemma sys_write_not_single (fd : Z) (buf : list Z) :
  List.length buf <> 1%nat -> emits not_single_write (sys_write fd buf).
Proof.
  intros Hlen. unfold sys_write. emits_auto.
  unfold not_single_write; simpl. apply Z.eqb_neq. lia.
Qed.

Lemma to_size_t_nonneg (z : Z) : (to_size_t z <? 0) = false.
Proof.
  apply Z.ltb_ge. unfold to_size_t.
  apply Z.mod_pos_bound. reflexivity.
Qed.

(** The payload loop only issues [write]s of the chunk size it was given;
    its test [written < 0] never holds. *)
Lemma psi_write_loop_not_single (fuel : nat) (fd ret end_ off : Z) :
  Z.to_nat (to_size_t (end_ - off)) <> 1%nat ->
  forall start,
    emits not_single_write (psi_write_loop fuel fd ret start end_ off).
Proof.
  intros Hchunk.
  induction fuel as [| fuel IH]; intros start; simpl.
  - emits_auto.
  - unfold get_radio_data, _d. emits_auto.
    apply sys_write_not_single. rewrite load_bytes_length. exact Hchunk.
Qed.

(** *** The run of [send_PSI] around the checksum *)

Lemma sys_write_starved (fd : Z) (buf : list Z) (w : world) :
  writes (env w) = [] -> sys_write fd buf w = (Starved, w).
Proof.
  intros E. unfold sys_write, bind, pop. rewrite E. reflexivity.
Qed.

Lemma sys_write_val (fd : Z) (buf : list Z) (w : world) (r : Z) rest :
  writes (env w) = r :: rest ->
  sys_write fd buf w =
  (Val r,
   with_trace
     (fun t => t ++ [EvWrite fd (Z.of_nat (List.length buf))
                       (firstn (Z.to_nat r) buf) r])
     (with_env (set_writes rest) w)).
Proof.
  intros E. unfold sys_write, bind, pop. rewrite E. reflexivity.
Qed.

Lemma trace_with_trace (f : list event -> list event) (w : world) :
  trace (with_trace f w) = f (trace w).
Proof. reflexivity. Qed.

Lemma trace_with_env (f : script -> script) (w : world) :
  trace (with_env f w) = trace w.
Proof. reflexivity. Qed.

Section AroundChecksum.

Variable fd : Z.
Variable w0 : world.

Lemma emits_before_crc {A} (m : M A) :
  emits not_single_write m -> reaches (before_crc w0) m (before_crc w0).
Proof.
  intros Hm w Hw. unfold before_crc in *.
  eapply grows_trans; [exact Hw | apply Hm].
Qed.

Lemma emits_after_crc {A} (m : M A) :
  emits not_write m -> reaches (after_crc fd w0) m (after_crc fd w0).
Proof.
  intros Hm w (t & r & post & Ht & Ft & Fp).
  destruct (Hm w) as (_ & _ & _ & t' & Ht' & Ft').
  exists t, r, (post ++ t'). repeat split.
  - rewrite Ht', Ht. rewrite <- !app_assoc. reflexivity.
  - exact Ft.
  - apply Forall_app. split; assumption.
Qed.

Lemma before_step {A B} (m : M A) (f : A -> M B) :
  emits not_single_write m ->
  (forall a, reaches (before_crc w0) (f a) (around_crc fd w0)) ->
  reaches (before_crc w0) (bind m f) (around_crc fd w0).
Proof.
  intros Hm Hf.
  apply reaches_bind with (R := (before_crc w0)).
  - apply emits_before_crc. exact Hm.
  - exact Hf.
  - intros w Hw. left. exact Hw.
Qed.

Lemma after_all {A} (m : M A) :
  emits not_write m -> reaches (after_crc fd w0) m (around_crc fd w0).
Proof.
  intros Hm w Hw. right. apply (emits_after_crc m Hm w Hw).
Qed.

(** From the checksum [write] on. *)
Lemma checksum_step (k : Z -> M Z) (w : world) :
  (forall r, emits not_write (k r)) ->
  (before_crc w0) w ->
  (around_crc fd w0)
    (snd (bind (sys_write fd
                  [calculateCRC (mem w) (radio_data (glob w))
                     (offset (i9100_radio_parts PSI))
                     (length (i9100_radio_parts PSI))]) k w)).
Proof.
  intros Hk Hw.
  destruct (writes (env w)) as [| r rest] eqn:E.
  - rewrite (bind_starved _ _ _ _ (sys_write_starved _ _ _ E)).
    left. exact Hw.
  - rewrite (bind_val _ _ _ _ _ (sys_write_val _ _ _ _ _ E)).
    apply (after_all (k r) (Hk r)).
    destruct Hw as (Hm & Hg & _ & t & Ht & Ft).
    exists t, r, []. split; [| split; [exact Ft | constructor]].
    rewrite trace_with_trace, trace_with_env, Ht, <- app_assoc.
    unfold crc_event, psi_range.
    rewrite calculateCRC_xor_all, Hm, Hg. reflexivity.
Qed.

End AroundChecksum.

Lemma reaches_returning (P Q : world -> Prop) (m : M Z) :
  reaches P m Q -> reaches P (returning m) Q.
Proof.
  intros Hm w HP. specialize (Hm w HP).
  unfold returning. destruct (m w) as [[a | r |] w1]; exact Hm.
Qed.

Lemma psi_chunk_not_single :
  Z.to_nat
    (to_size_t
       (to_size_t
          (length (i9100_radio_parts PSI) + offset (i9100_radio_parts PSI))
        - offset (i9100_radio_parts PSI))) <> 1%nat.
Proof.
  change (to_size_t
            (to_size_t
               (length (i9100_radio_parts PSI)
                + offset (i9100_radio_parts PSI))
             - offset (i9100_radio_parts PSI))) with 61440.
  intros H. apply (f_equal Z.of_nat) in H.
  rewrite Z2Nat.id in H by lia. discriminate H.
Qed.

Lemma send_PSI_around_crc (fd : Z) (w0 : world) :
  around_crc fd w0 (snd (send_PSI fd w0)).
Proof.
  assert (H : reaches (before_crc w0) (send_PSI fd) (around_crc fd w0)).
  { unfold send_PSI. apply reaches_returning.
    apply before_step.
    { apply sys_write_not_single. simpl. lia. }
    intros ret. apply before_step.
    { unfold _d. emits_auto. }
    intros _. apply before_step.
    { unfold _d. emits_auto. }
    intros _. apply before_step.
    { emits_auto. }
    intros rounds. apply before_step.
    { apply psi_write_loop_not_single. exact psi_chunk_not_single. }
    intros _ w Hw.
    apply (checksum_step fd w0); [| exact Hw].
    intros r. unfold _d. emits_auto. }
  apply H. apply grows_refl.
Qed.

(** A split of a list at an element in [P] is unique when no element
    before it and no element after it is in [P]. *)
Lemma split_at_unique {X} (P : X -> bool) (front : list X) (x : X) back :
  Forall (fun y => P y = false) front ->
  Forall (fun y => P y = false) back ->
  forall pre e post,
    P e = true ->
    front ++ x :: back = pre ++ e :: post ->
    pre = front /\ e = x /\ post = back.
Proof.
  intros Hf Hb.
  induction front as [| a front IH]; intros pre e post He Heq.
  - destruct pre as [| p pre]; simpl in Heq.
    + inversion Heq; subst. auto.
    + inversion Heq; subst.
      rewrite Forall_forall in Hb.
      specialize (Hb e (in_elt e pre post)). congruence.
  - inversion Hf as [| ? ? Ha Hf']; subst.
    destruct pre as [| p pre]; simpl in Heq.
    + inversion Heq; subst. congruence.
    + inversion Heq; subst.
      destruct (IH Hf' pre e post He H1) as (-> & -> & ->). auto.
Qed.

(** C5: [calculateCRC] is the running exclusive or of exactly the bytes
    of the range it is given (0 for the bytes 1, 2, 3), and the only
    one-byte [write] of [send_PSI] offers the running exclusive or of the
    first-stage loader's range, after every other [write] of the upload. *)
Theorem checksum_is_xor_of_psi_range :
  (forall (m : memory) (data off len : Z),
     calculateCRC m data off len =
     xor_all (load_bytes m (data + off) (Z.to_nat len))) /\
  (load_bytes memory_123 (100 + 0) 3 = [1; 2; 3] /\
   calculateCRC memory_123 100 0 3 = 0) /\
  (forall (fd : Z) (w : world) pre fd' accepted r post,
     trace (snd (send_PSI fd w)) =
       trace w ++ pre ++ EvWrite fd' 1 accepted r :: post ->
     fd' = fd /\
     accepted = firstn (Z.to_nat r) [xor_all (psi_range w)] /\
     Forall (fun e => is_write e = false) post).
Proof.
  split; [| split].
  - exact calculateCRC_xor_all.
  - split; reflexivity.
  - intros fd w pre fd' accepted r post Htrace.
    destruct (send_PSI_around_crc fd w) as [Hb | Ha].
    + destruct Hb as (_ & _ & _ & t & Ht & Ft).
      rewrite Ht in Htrace. apply app_inv_head in Htrace. subst t.
      apply Forall_app in Ft. destruct Ft as [_ Ft].
      inversion Ft as [| ? ? Hbad _]; subst.
      unfold not_single_write in Hbad. simpl in Hbad. discriminate Hbad.
    + destruct Ha as (t & r0 & post0 & Ht & Ft & Fp).
      rewrite Ht in Htrace. apply app_inv_head in Htrace.
      assert (Fp' : Forall (fun y => single_write y = false) post0).
      { eapply Forall_impl; [| exact Fp]. exact not_write_not_single. }
      destruct (split_at_unique single_write t (crc_event fd w r0) post0
                  Ft Fp' pre (EvWrite fd' 1 accepted r) post eq_refl Htrace)
        as (_ & He & Hpost).
      unfold crc_event in He. inversion He; subst.
      repeat split. exact Fp.
Qed.

(** ** Starvation: a run stops short only for want of answers *)

Lemma safe_at_bind {A B} (m : M A) (f : A -> M B) (w : world) :
  safe_at m w -> (forall a, safe (f a)) -> safe_at (bind m f) w.
Proof.
  unfold safe_at, bind. intros Hm Hf.
  destruct (m w) as [[a | r |] w1]; simpl in *.
  - apply Hf.
  - discriminate.
  - intros _. apply Hm. reflexivity.
Qed.

Section Safe.

Lemma safe_pure {A} (a : A) : safe (pure a).
Proof. intros w H. discriminate H. Qed.

Lemma safe_gets {A} (f : world -> A) : safe (gets f).
Proof. intros w H. discriminate H. Qed.

Lemma safe_modify (f : world -> world) : safe (modify f).
Proof. intros w H. discriminate H. Qed.

Lemma safe_goto_fail {A} (r : Z) : safe (@goto_fail A r).
Proof. intros w H. discriminate H. Qed.

Lemma safe_returning (m : M Z) : safe m -> safe (returning m).
Proof.
  intros Hm w. specialize (Hm w). unfold returning.
  destruct (m w) as [[a | r |] w1]; simpl in *;
    solve [discriminate | exact Hm].
Qed.

Lemma safe_if {A} (b : bool) (m1 m2 : M A) :
  safe m1 -> safe m2 -> safe (if b then m1 else m2).
Proof. intros H1 H2. destruct b; assumption. Qed.

Lemma safe_then_fail_label {A B} (m : M A) (k : M B) :
  safe m -> safe k -> safe (then_fail_label m k).
Proof.
  intros Hm Hk w. specialize (Hm w). unfold then_fail_label.
  destruct (m w) as [[a | r |] w1]; simpl in *.
  - apply Hk.
  - apply Hk.
  - intros _. apply Hm. reflexivity.
Qed.

Lemma safe_pop_opens : safe (pop opens set_opens).
Proof.
  intros w. unfold pop. destruct (opens (env w)) eqn:E; simpl.
  - intros _. left. exact E.
  - discriminate.
Qed.

Lemma safe_pop_fstats : safe (pop fstats set_fstats).
Proof.
  intros w. unfold pop. destruct (fstats (env w)) eqn:E; simpl.
  - intros _. right. left. exact E.
  - discriminate.
Qed.

Lemma safe_pop_mmaps : safe (pop mmaps set_mmaps).
Proof.
  intros w. unfold pop. destruct (mmaps (env w)) eqn:E; simpl.
  - intros _. do 2 right. left. exact E.
  - discriminate.
Qed.

Lemma safe_pop_ioctls : safe (pop ioctls set_ioctls).
Proof.
  intros w. unfold pop. destruct (ioctls (env w)) eqn:E; simpl.
  - intros _. do 3 right. left. exact E.
  - discriminate.
Qed.

Lemma safe_pop_writes : safe (pop writes set_writes).
Proof.
  intros w. unfold pop. destruct (writes (env w)) eqn:E; simpl.
  - intros _. do 4 right. left. exact E.
  - discriminate.
Qed.

Lemma safe_pop_selects : safe (pop selects set_selects).
Proof.
  intros w. unfold pop. destruct (selects (env w)) eqn:E; simpl.
  - intros _. do 5 right. left. exact E.
  - discriminate.
Qed.

Lemma safe_pop_reads : safe (pop reads set_reads).
Proof.
  intros w. unfold pop. destruct (reads (env w)) eqn:E; simpl.
  - intros _. do 6 right. exact E.
  - discriminate.
Qed.

End Safe.

Create HintDb safe.

#[local] Hint Resolve safe_pop_opens safe_pop_fstats safe_pop_mmaps
  safe_pop_ioctls safe_pop_writes safe_pop_selects safe_pop_reads : safe.

Ltac safe_step :=
  lazymatch goal with
  | |- safe (bind _ _) => apply safe_bind; [| intros ?]
  | |- safe (pure _) => apply safe_pure
  | |- safe (gets _) => apply safe_gets
  | |- safe (modify _) => apply safe_modify
  | |- safe (emit _) => apply safe_modify
  | |- safe (goto_fail _) => apply safe_goto_fail
  | |- safe (returning _) => apply safe_returning
  | |- safe (if _ then _ else _) => apply safe_if
  | |- safe (then_fail_label _ _) => apply safe_then_fail_label
  end.

Ltac safe_auto :=
  repeat first [ safe_step | solve [auto with safe nocore] ].

(** The primitive calls. *)
Ltac unfold_calls :=
  unfold read_select;
  unfold sys_open, sys_fstat, sys_mmap, sys_ioctl, sys_write, sys_select,
    sys_close, sys_munmap, usleep, _e, _d, _i, indeterminate,
    get_link_fd, get_boot_fd, get_radio_fd, get_radio_data,
    set_link_fd, set_boot_fd, set_radio_fd, set_radio_data.

Lemma sys_read_safe (fd size : Z) : safe (sys_read fd size).
Proof.
  unfold sys_read. apply safe_bind; [auto with safe nocore | intros a].
  destruct a as [ready |]; [| safe_auto].
  apply safe_bind; [| intros _; safe_auto].
  destruct (skipn (Z.to_nat size) ready); safe_auto.
Qed.

#[local] Hint Resolve sys_read_safe : safe.

Lemma c_ioctl_safe (fd : Z) (code : ioctl_code) (data : option Z) :
  safe (c_ioctl fd code data).
Proof. unfold c_ioctl. destruct data; unfold_calls; safe_auto. Qed.

Lemma receive_safe (fd : Z) (buf : list Z) (size : Z) :
  safe (receive fd buf size).
Proof. unfold receive. unfold_calls. safe_auto. Qed.

#[local] Hint Resolve c_ioctl_safe receive_safe : safe.

Lemma expect_data_safe (fd : Z) (data : list Z) (size : Z) :
  safe (expect_data fd data size).
Proof. unfold expect_data. unfold_calls. safe_auto. Qed.

Lemma i9100_ehci_setpower_safe (enabled : bool) :
  safe (i9100_ehci_setpower enabled).
Proof. unfold i9100_ehci_setpower. unfold_calls. safe_auto. Qed.

Lemma i9100_link_set_active_safe (enabled : bool) :
  safe (i9100_link_set_active enabled).
Proof. unfold i9100_link_set_active. unfold_calls. safe_auto. Qed.

Lemma xmm6260_setpower_safe (enabled : bool) :
  safe (xmm6260_setpower enabled).
Proof. unfold xmm6260_setpower. unfold_calls. safe_auto. Qed.

Lemma ack_loop_safe (n : nat) (fd ret : Z) : safe (ack_loop n fd ret).
Proof.
  induction n as [| n IH]; simpl; unfold_calls; safe_auto.
Qed.

#[local] Hint Resolve expect_data_safe i9100_ehci_setpower_safe
  i9100_link_set_active_safe xmm6260_setpower_safe ack_loop_safe : safe.

(** Each round of the poll takes one answer of [ioctl]: with more rounds
    than answers, the loop starves on an empty queue, never on its bound. *)
Lemma wait_link_loop_safe (fuel : nat) :
  forall w,
    (List.length (ioctls (env w)) < fuel)%nat ->
    safe_at (wait_link_loop fuel) w.
Proof.
  induction fuel as [| fuel IH]; intros w Hlen; [inversion Hlen |].
  unfold safe_at. simpl.
  unfold get_link_fd, c_ioctl, sys_ioctl, usleep, _e, _d, emit, modify,
    gets, pure, goto_fail, bind, pop.
  destruct (ioctls (env w)) as [| r rest] eqn:E; simpl.
  - intros _. do 3 right. left. exact E.
  - destruct (r <? 0) eqn:Hneg; simpl; rewrite Hneg; simpl;
      [intros H; discriminate H |].
    destruct (r =? 1); simpl; [intros H; discriminate H |].
    apply IH. simpl in *. lia.
Qed.

Lemma safe_gets_bind {A B} (g : world -> A) (f : A -> M B) :
  (forall w, safe_at (f (g w)) w) -> safe (bind (gets g) f).
Proof.
  intros H w. exact (H w).
Qed.

Lemma i9100_wait_link_ready_safe : safe i9100_wait_link_ready.
Proof.
  unfold i9100_wait_link_ready.
  apply safe_returning. apply safe_gets_bind. intros w.
  apply safe_at_bind.
  - apply wait_link_loop_safe. apply Nat.lt_succ_diag_r.
  - intros u. apply safe_pure.
Qed.

Lemma psi_write_loop_safe (fuel : nat) (fd ret end_ off : Z) :
  forall start w,
    (List.length (writes (env w)) < fuel)%nat ->
    safe_at (psi_write_loop fuel fd ret start end_ off) w.
Proof.
  induction fuel as [| fuel IH]; intros start w Hlen; [inversion Hlen |].
  unfold safe_at. simpl.
  destruct (start <? end_); [| intros H; discriminate H].
  unfold get_radio_data, sys_write, _d, emit, modify,
    gets, pure, goto_fail, bind, pop.
  destruct (writes (env w)) as [| r rest] eqn:E; simpl.
  - intros _. do 4 right. left. exact E.
  - rewrite to_size_t_nonneg.
    apply IH. simpl in *. lia.
Qed.

(** The payload loop with the bound [send_PSI] gives it, followed by the
    rest of the function. *)
Lemma psi_rounds_safe {B} (fd ret start end_ off : Z) (k : unit -> M B) :
  (forall u, safe (k u)) ->
  safe (rounds <- gets (fun w => S (List.length (writes (env w)))) ;;
        psi_write_loop rounds fd ret start end_ off ;; k tt).
Proof.
  intros Hk. apply safe_gets_bind. intros w.
  apply safe_at_bind.
  - apply psi_write_loop_safe. apply Nat.lt_succ_diag_r.
  - intros u. apply Hk.
Qed.

Lemma send_PSI_safe (fd : Z) : safe (send_PSI fd).
Proof.
  unfold send_PSI. apply safe_returning.
  apply safe_bind; [unfold_calls; safe_auto | intros ret].
  apply safe_bind; [unfold_calls; safe_auto | intros _].
  apply safe_bind; [unfold_calls; safe_auto | intros _].
  apply (psi_rounds_safe fd ret _ _ _
           (fun _ => m <- gets mem ;; _)).
  intros u. cbv beta. unfold_calls. safe_auto.
Qed.

#[local] Hint Resolve i9100_wait_link_ready_safe send_PSI_safe : safe.

Lemma main_body_safe : safe main_body.
Proof. unfold main_body. unfold_calls. safe_auto. Qed.

Lemma cleanup_returns (w : world) : fst (cleanup w) = Val tt.
Proof.
  unfold cleanup. unfold_calls.
  unfold bind, gets, emit, modify, pure; simpl.
  destruct (negb (radio_data (glob w) =? MAP_FAILED)); simpl;
    destruct (link_fd (glob w) >=? 0); simpl;
    destruct (radio_fd (glob w) >=? 0); simpl;
    destruct (boot_fd (glob w) >=? 0); reflexivity.
Qed.

(** Whatever the environment answers, a run of [main] that comes to its
    end returns 0; a run that does not has used up the answers it was
    given. *)
Lemma main_status_when_returned :
  forall w : world,
    match main w with
    | (Val status, _) => status = 0
    | (Jump _, _) => False
    | (Starved, w') => exhausted w'
    end.
Proof.
  intros w.
  pose proof (main_body_safe w) as Hs.
  unfold main, then_fail_label.
  destruct (main_body w) as [[u | r |] w1]; simpl in Hs.
  - unfold bind. pose proof (cleanup_returns w1) as Hc.
    destruct (cleanup w1) as [o w2]; simpl in Hc; subst o. reflexivity.
  - unfold bind. pose proof (cleanup_returns w1) as Hc.
    destruct (cleanup w1) as [o w2]; simpl in Hc; subst o. reflexivity.
  - apply Hs. reflexivity.
Qed.

(** ** Runs of the program *)

Lemma sent_on_concat (fd : Z) (t : list event) :
  sent_on fd t = List.concat (accepted_on fd t).
Proof.
  unfold sent_on, accepted_on.
  induction t as [| e t IH]; [reflexivity |].
  change (flat_map ?f (e :: t)) with (f e ++ flat_map f t).
  cbv beta. rewrite concat_app, IH. f_equal.
  destruct e; try reflexivity.
  destruct (fd0 =? fd); [| reflexivity].
  symmetry. apply app_nil_r.
Qed.

Lemma load_bytes_snoc (m : memory) (n : nat) :
  forall a,
    load_bytes m a (S n) = load_bytes m a n ++ [load8 m (a + Z.of_nat n)].
Proof.
  induction n as [| n IH]; intros a.
  - simpl. rewrite Z.add_0_r. reflexivity.
  - change (load_bytes m a (S (S n)))
      with (load8 m a :: load_bytes m (a + 1) (S n)).
    rewrite IH.
    change (load_bytes m a (S n)) with (load8 m a :: load_bytes m (a + 1) n).
    rewrite Nat2Z.inj_succ.
    replace (a + Z.succ (Z.of_nat n)) with (a + 1 + Z.of_nat n) by lia.
    reflexivity.
Qed.

(** What a channel has received that takes one byte of the range and then
    all it is offered from the next byte on: the range and the byte after
    it. *)
Lemma one_then_all (m : memory) (a : Z) (n : nat) :
  firstn 1 (load_bytes m a (S n)) ++
  firstn (S n) (load_bytes m (a + 1) (S n)) =
  load_bytes m a (S n) ++ [load8 m (a + Z.of_nat (S n))].
Proof.
  rewrite (firstn_all2 (load_bytes m (a + 1) (S n)))
    by (rewrite load_bytes_length; apply Nat.le_refl).
  rewrite (load_bytes_snoc m n (a + 1)).
  change (load_bytes m a (S n)) with (load8 m a :: load_bytes m (a + 1) n).
  rewrite Nat2Z.inj_succ.
  replace (a + Z.succ (Z.of_nat n)) with (a + 1 + Z.of_nat n) by lia.
  reflexivity.
Qed.

(** The upload on a channel that takes everything it is offered: header,
    the first-stage loader's range, checksum. *)
Lemma send_PSI_good_run :
  fst (send_PSI 4 good_psi_world) = Val 0 /\
  accepted_on 4 (trace (snd (send_PSI 4 good_psi_world))) =
    [ [0x30; 0x00; 0xF0; 0x00];
      psi_range good_psi_world;
      [xor_all (psi_range good_psi_world)] ].
Proof.
  split; [reflexivity |].
  assert (H : accepted_on 4 (trace (snd (send_PSI 4 good_psi_world))) =
              [ [0x30; 0x00; 0xF0; 0x00];
                firstn (Z.to_nat 0xF000) (psi_range good_psi_world);
                [calculateCRC demo_memory 0x40000000 0 0xF000] ])
    by reflexivity.
  rewrite H. rewrite calculateCRC_xor_all.
  rewrite firstn_all2; [reflexivity |].
  unfold psi_range. rewrite load_bytes_length. apply Nat.le_refl.
Qed.

Lemma checksum_is_xor_of_psi_range_witness :
  good_psi_trace =
    trace good_psi_world ++
    firstn 3 good_psi_trace ++
    EvWrite 4 1 (firstn 1 [xor_all (psi_range good_psi_world)]) 1
      :: skipn 4 good_psi_trace /\
  4 = 4 /\
  firstn 1 [xor_all (psi_range good_psi_world)] =
    firstn (Z.to_nat 1) [xor_all (psi_range good_psi_world)] /\
  Forall (fun e => is_write e = false) (skipn 4 good_psi_trace).
Proof.
  assert (H : trace (snd (send_PSI 4 good_psi_world)) =
              trace good_psi_world ++
              firstn 3 good_psi_trace ++
              EvWrite 4 1
                (firstn 1 [calculateCRC demo_memory 0x40000000 0 0xF000]) 1
                :: skipn 4 good_psi_trace)
    by reflexivity.
  rewrite calculateCRC_xor_all in H.
  split; [exact H |].
  exact (proj2 (proj2 checksum_is_xor_of_psi_range) 4 good_psi_world
           _ 4 _ 1 _ H).
Defined.

(** C1 fails on the code.  After a partial [write] the loop offers the
    full length again from the advanced cursor, so a channel that takes it
    receives the byte that follows the range; and a failed [write] (-1) is
    not fatal: converted to [size_t] it moves the cursor past the end, the
    loop ends without a payload byte and the upload goes on to succeed. *)
Theorem send_PSI_payload_defects :
  (fst (send_PSI 4 partial_write_world) = Val 0 /\
   sent_on 4 (trace (snd (send_PSI 4 partial_write_world))) =
     [0x30; 0x00; 0xF0; 0x00] ++
     psi_range partial_write_world ++
     [load8 demo_memory (0x40000000 + 0xF000)] ++
     [xor_all (psi_range partial_write_world)]) /\
  (fst (send_PSI 4 failed_write_world) = Val 0 /\
   map (fun e => match e with EvWrite _ _ _ r => r | _ => 0 end)
     (filter is_write (trace (snd (send_PSI 4 failed_write_world)))) =
     [4; -1; 1] /\
   sent_on 4 (trace (snd (send_PSI 4 failed_write_world))) =
     [0x30; 0x00; 0xF0; 0x00] ++
     [xor_all (psi_range failed_write_world)]).
Proof.
  split; [split; [reflexivity |] | split; [reflexivity | split; [reflexivity |]]].
  - rewrite sent_on_concat.
    assert (H : accepted_on 4 (trace (snd (send_PSI 4 partial_write_world))) =
                [ [0x30; 0x00; 0xF0; 0x00];
                  firstn 1 (load_bytes demo_memory 0x40000000
                              (S (Z.to_nat 0xEFFF)));
                  firstn (S (Z.to_nat 0xEFFF))
                    (load_bytes demo_memory (0x40000000 + 1)
                       (S (Z.to_nat 0xEFFF)));
                  [calculateCRC demo_memory 0x40000000 0 0xF000] ])
      by reflexivity.
    rewrite H.
    change (List.concat [?a; ?b; ?c; ?d]) with (a ++ b ++ c ++ d ++ []).
    rewrite app_nil_r.
    rewrite (app_assoc (firstn 1 _)).
    rewrite one_then_all.
    rewrite calculateCRC_xor_all.
    rewrite <- app_assoc.
    reflexivity.
  - rewrite sent_on_concat.
    assert (H : accepted_on 4 (trace (snd (send_PSI 4 failed_write_world))) =
                [ [0x30; 0x00; 0xF0; 0x00];
                  [];
                  [calculateCRC demo_memory 0x40000000 0 0xF000] ])
      by reflexivity.
    rewrite H. rewrite calculateCRC_xor_all. reflexivity.
Qed.

(** The result of [expect_data] for one expected byte 0x01, when the
    [select] succeeds and a byte [b] is ready: 0 for 0x01, negative only
    for 0x00, positive for every other byte. *)
Lemma expect_data_one_byte (fd : Z) (w : world) (s b : Z) ss more rest :
  selects (env w) = s :: ss ->
  (s <? 0) = false ->
  reads (env w) = Some (b :: more) :: rest ->
  fst (expect_data fd [0x1] 1 w) = Val (if b =? 1 then 0 else b - 1).
Proof.
  intros Hs Hneg Hr.
  unfold expect_data, receive, read_select, sys_select, sys_read,
    indeterminate, _e, _d, emit, modify, gets, pure, bind, pop.
  rewrite Hs. simpl. rewrite Hneg. simpl. rewrite Hr. simpl.
  destruct more; simpl; destruct (b =? 1); simpl; try reflexivity;
    destruct (b - 1 =? 0); reflexivity.
Qed.

(** C2 fails on the code: the confirmation bytes 0x02 and 0x09 are not
    0x01, and [send_PSI] returns 0; only the byte 0x00, for which [memcmp]
    is negative, makes it fail. *)
Theorem send_PSI_accepts_wrong_confirmation :
  (skipn 22 (reads_of (trace (snd (send_PSI 4 wrong_confirm_world)))) =
     [EvRead 4 1 [0x02] 1; EvRead 4 1 [0x09] 1] /\
   fst (send_PSI 4 wrong_confirm_world) = Val 0) /\
  (skipn 22 (reads_of (trace (snd (send_PSI 4 zero_confirm_world)))) =
     [EvRead 4 1 [0x00] 1] /\
   fst (send_PSI 4 zero_confirm_world) = Val (-1)).
Proof.
  repeat split; reflexivity.
Qed.

(** C3 fails on the code: on the final acknowledgment [0x01 0x00] [main]
    logs no error and ends as the successful run does; it reports the
    failure only when [memcmp] is negative, as for [0x00 0x00]. *)
Theorem main_accepts_wrong_final_ack :
  (skipn 26 (reads_of (trace (snd (main wrong_final_ack_world)))) =
     [EvRead 4 2 [0x01; 0x00] 2] /\
   errors (trace (snd (main wrong_final_ack_world))) = [] /\
   errors (trace (snd (main good_world))) = []) /\
  (skipn 26 (reads_of (trace (snd (main low_final_ack_world)))) =
     [EvRead 4 2 [0x00; 0x00] 2] /\
   errors (trace (snd (main low_final_ack_world))) =
     ["failed to receive PSI ACK"%string]).
Proof.
  repeat split; reflexivity.
Qed.

(** The steps of the bring-up that [main] does not treat as fatal: all
    four fail, each failure is logged, and the run goes on through the
    handshake and the upload. *)
Lemma nonfatal_steps_continue :
  errors (trace (snd (main nonfatal_failures_world))) =
    [ "ioctl fd=%d code=%lx failed: %s"%string;
      "failed to disable xmm6260 power"%string;
      "ioctl fd=%d code=%lx failed: %s"%string;
      "failed to disable I9100 HSIC link"%string;
      "failed to set EHCI power"%string;
      "failed to disable I9100 EHCI"%string;
      "ioctl fd=%d code=%lx failed: %s"%string;
      "failed to enable I9100 HSIC link"%string ] /\
  firstn 2 (accepted_on 4 (trace (snd (main nonfatal_failures_world)))) =
    [ATAT; [0x30; 0x00; 0xF0; 0x00]] /\
  fst (main nonfatal_failures_world) = Val 0.
Proof.
  repeat split; reflexivity.
Qed.

(** A negative result of the EHCI power-on or of the chip power-on ends
    the run before anything is written to the boot channel. *)
Lemma fatal_steps_abort :
  (errors (trace (snd (main ehci_failed_write_world))) =
     [ "failed to set EHCI power"%string;
       "failed to enable I9100 EHCI"%string ] /\
   accepted_on 4 (trace (snd (main ehci_failed_write_world))) = []) /\
  (errors (trace (snd (main modem_on_fails_world))) =
     [ "ioctl fd=%d code=%lx failed: %s"%string;
       "failed to enable xmm6260 power"%string ] /\
   accepted_on 4 (trace (snd (main modem_on_fails_world))) = []).
Proof.
  repeat split; reflexivity.
Qed.

(** C6 fails on the code for the EHCI power-on.  When its [write] accepts
    no byte, [i9100_ehci_setpower] logs the failure and returns 0; when
    the power file cannot be opened, it returns an uninitialised [ret]
    (here 0).  [main] tests [< 0], takes both for success and goes on to
    write ["ATAT"] and the PSI to the boot channel. *)
Theorem main_continues_after_ehci_failure :
  (errors (trace (snd (main ehci_zero_write_world))) =
     ["failed to set EHCI power"%string] /\
   firstn 2 (accepted_on 4 (trace (snd (main ehci_zero_write_world)))) =
     [ATAT; [0x30; 0x00; 0xF0; 0x00]]) /\
  (errors (trace (snd (main ehci_no_open_world))) =
     ["failed to open EHCI fd"%string] /\
   firstn 2 (accepted_on 4 (trace (snd (main ehci_no_open_world)))) =
     [ATAT; [0x30; 0x00; 0xF0; 0x00]]).
Proof.
  repeat split; reflexivity.
Qed.

(** The resources a complete run releases: the EHCI power file, twice
    opened and closed, then the mapping, the link device, the image and
    the boot device. *)
Lemma cleanup_after_good_run :
  fst (main good_world) = Val 0 /\
  releases (trace (snd (main good_world))) =
    [ EvClose 6; EvClose 6; EvMunmap 0x40000000 RADIO_MAP_SIZE;
      EvClose 5; EvClose 3; EvClose 4 ].
Proof.
  split; reflexivity.
Qed.

(** C7 fails on the code.  The handles are static and so start as 0 and
    NULL, which the guards of the cleanup ([>= 0], [!= MAP_FAILED]) take
    for acquired: when the radio image cannot be opened, the cleanup
    unmaps address 0 and closes descriptor 0 twice; when the boot device
    cannot be opened, it closes descriptor 0 for the link device that was
    never opened. *)
Theorem cleanup_releases_unacquired_handles :
  trace (snd (main no_image_world)) =
    [ EvOpen RADIO_IMAGE (-1);
      EvLog LogE "failed to open radio firmware";
      EvMunmap 0 RADIO_MAP_SIZE; EvClose 0; EvClose 0 ] /\
  releases (trace (snd (main no_boot_device_world))) =
    [ EvMunmap 0x40000000 RADIO_MAP_SIZE; EvClose 0; EvClose 3 ].
Proof.
  split; reflexivity.
Qed.

(** The synchronisation pattern: when fewer than 4 bytes are accepted the
    run ends without reading from the channel. *)
Lemma short_sync_is_fatal :
  errors (trace (snd (main short_sync_world))) =
    ["failed to write ATAT to boot socket"%string] /\
  accepted_on 4 (trace (snd (main short_sync_world))) = [[0x41; 0x54; 0x41]] /\
  reads_of (trace (snd (main short_sync_world))) = [].
Proof.
  repeat split; reflexivity.
Qed.

(** C9 fails on the code for the two reads: [main] tests [< 0], so a
    [read] that returns 0, with no byte obtained, is not a failure; the
    handshake goes on with the second byte and the upload starts.  (The
    reads of the acknowledgment train in [send_PSI] test [< 1].) *)
Theorem handshake_accepts_empty_read :
  firstn 2 (reads_of (trace (snd (main empty_handshake_world)))) =
    [EvRead 4 1 [] 0; EvRead 4 1 [0x0B] 1] /\
  errors (trace (snd (main empty_handshake_world))) = [] /\
  firstn 2 (accepted_on 4 (trace (snd (main empty_handshake_world)))) =
    [ATAT; [0x30; 0x00; 0xF0; 0x00]].
Proof.
  repeat split; reflexivity.
Qed.

(** The exit status of a run that succeeds and of runs that fail. *)
Lemma exit_status_examples :
  fst (main good_world) = Val 0 /\
  fst (main no_image_world) = Val 0 /\
  fst (main ehci_failed_write_world) = Val 0 /\
  fst (main low_final_ack_world) = Val 0.
Proof.
  repeat split; reflexivity.
Qed.

(** * Further properties of the code *)

(** ** [calculateCRC] *)

Lemma load_bytes_app (m : memory) (n1 n2 : nat) :
  forall a,
    load_bytes m a (n1 + n2) =
    load_bytes m a n1 ++ load_bytes m (a + Z.of_nat n1) n2.
Proof.
  induction n1 as [| n1 IH]; intros a.
  - simpl. rewrite Z.add_0_r. reflexivity.
  - change (load_bytes m a (S n1 + n2))
      with (load8 m a :: load_bytes m (a + 1) (n1 + n2)).
    rewrite IH. rewrite Nat2Z.inj_succ.
    replace (a + Z.succ (Z.of_nat n1)) with (a + 1 + Z.of_nat n1) by lia.
    reflexivity.
Qed.

Lemma fold_lxor_start (l : list Z) :
  forall c,
    fold_left (fun c b => Z.lxor c b) l c =
    Z.lxor c (fold_left (fun c b => Z.lxor c b) l 0).
Proof.
  induction l as [| b l IH]; intros c; simpl.
  - symmetry. apply Z.lxor_0_r.
  - rewrite IH. rewrite (IH b). rewrite Z.lxor_assoc. reflexivity.
Qed.

Lemma xor_all_app (l1 l2 : list Z) :
  xor_all (l1 ++ l2) = Z.lxor (xor_all l1) (xor_all l2).
Proof.
  unfold xor_all. rewrite fold_left_app. apply fold_lxor_start.
Qed.

(** X1: the checksum of a range is the exclusive or of the checksums of
    its two parts, wherever the range is cut. *)
Theorem calculateCRC_split (m : memory) (data off len1 len2 : Z) :
  0 <= len1 -> 0 <= len2 ->
  calculateCRC m data off (len1 + len2) =
  Z.lxor (calculateCRC m data off len1)
         (calculateCRC m data (off + len1) len2).
Proof.
  intros H1 H2.
  rewrite !calculateCRC_xor_all.
  rewrite Z2Nat.inj_add by assumption.
  rewrite load_bytes_app, xor_all_app.
  rewrite Z2Nat.id by assumption.
  rewrite Z.add_assoc. reflexivity.
Qed.

Lemma calculateCRC_split_witness :
  0 <= 1 /\ 0 <= 2 /\
  calculateCRC memory_123 100 0 (1 + 2) =
  Z.lxor (calculateCRC memory_123 100 0 1)
         (calculateCRC memory_123 100 (0 + 1) 2).
Proof.
  split; [lia | split; [lia |]].
  apply (calculateCRC_split memory_123 100 0 1 2); lia.
Defined.

(** X2: the checksum is an unsigned byte, for every memory and range. *)
Theorem calculateCRC_is_byte (m : memory) (data off len : Z) :
  0 <= calculateCRC m data off len < 256.
Proof.
  rewrite calculateCRC_xor_all.
  apply xor_all_is_byte. apply load_bytes_are_bytes.
Qed.

(** X3: a range followed by its own checksum byte has checksum 0: this is
    how the receiver of the upload can verify it. *)
Theorem calculateCRC_self_check (m : memory) (data off len : Z) :
  0 <= len ->
  load8 m (data + off + len) = calculateCRC m data off len ->
  calculateCRC m data off (len + 1) = 0.
Proof.
  intros Hlen Hbyte.
  rewrite !calculateCRC_xor_all.
  rewrite Z2Nat.inj_add by lia.
  rewrite load_bytes_app, xor_all_app.
  rewrite Z2Nat.id by assumption.
  change (Z.to_nat 1) with 1%nat.
  change (load_bytes m (data + off + len) 1) with [load8 m (data + off + len)].
  rewrite Hbyte, calculateCRC_xor_all.
  unfold xor_all at 2. simpl. apply Z.lxor_nilpotent.
Qed.

Lemma calculateCRC_self_check_witness :
  0 <= 3 /\
  load8 memory_1230 (100 + 0 + 3) = calculateCRC memory_1230 100 0 3 /\
  calculateCRC memory_1230 100 0 (3 + 1) = 0.
Proof.
  split; [lia | split; [reflexivity |]].
  apply (calculateCRC_self_check memory_1230 100 0 3); [lia | reflexivity].
Defined.

(** ** [receive] and [expect_data] *)

Lemma receive_ready (fd : Z) (buf : list Z) (size : Z) (w : world)
  (s : Z) ss ready rest :
  selects (env w) = s :: ss ->
  (s <? 0) = false ->
  reads (env w) = Some ready :: rest ->
  let got := firstn (Z.to_nat size) ready in
  fst (receive fd buf size w) =
    Val (Z.of_nat (List.length got), store_bytes buf got) /\
  selects (env (snd (receive fd buf size w))) = ss /\
  reads (env (snd (receive fd buf size w))) = after_read size ready rest /\
  trace (snd (receive fd buf size w)) =
    trace w ++ [EvSelect fd s; EvLog LogD "%s: selected fd %d for %d";
                EvRead fd size got (Z.of_nat (List.length got))] /\
  glob (snd (receive fd buf size w)) = glob w /\
  indet (snd (receive fd buf size w)) = indet w.
Proof.
  intros Hs Hneg Hr got.
  unfold receive, read_select, sys_select, sys_read, _e, _d, emit, modify,
    gets, pure, bind, pop, after_read.
  rewrite Hs. simpl. rewrite Hneg. simpl. rewrite Hr. simpl.
  subst got.
  destruct (skipn (Z.to_nat size) ready) as [| b0 more]; simpl;
    rewrite <- !app_assoc; simpl; repeat split; reflexivity.
Qed.

Lemma receive_select_failed (fd : Z) (buf : list Z) (size : Z) (w : world)
  (s : Z) ss :
  selects (env w) = s :: ss ->
  (s <? 0) = true ->
  fst (receive fd buf size w) = Val (s, buf) /\
  reads (env (snd (receive fd buf size w))) = reads (env w) /\
  trace (snd (receive fd buf size w)) =
    trace w ++ [EvSelect fd s; EvLog LogE "%s: failed to select the fd %d"].
Proof.
  intros Hs Hneg.
  unfold receive, read_select, sys_select, sys_read, _e, _d, emit, modify,
    gets, pure, bind, pop.
  rewrite Hs. simpl. rewrite Hneg. simpl.
  rewrite <- !app_assoc. repeat split; reflexivity.
Qed.

Lemma memcmp_zero_iff (n : nat) :
  forall a b : list Z,
    (n <= List.length a)%nat -> (n <= List.length b)%nat ->
    (memcmp a b n = 0 <-> firstn n a = firstn n b).
Proof.
  induction n as [| n IH]; intros a b Ha Hb.
  - destruct a; simpl; split; reflexivity.
  - destruct a as [| x a]; [inversion Ha |].
    destruct b as [| y b]; [inversion Hb |].
    simpl in Ha, Hb. simpl.
    destruct (x =? y) eqn:E.
    + apply Z.eqb_eq in E. subst y.
      rewrite (IH a b) by lia.
      split; [intros H; rewrite H; reflexivity | intros H; inversion H; reflexivity].
    + apply Z.eqb_neq in E. split.
      * intros H. lia.
      * intros H. inversion H. contradiction.
Qed.

Lemma skipn_repeat_all {X} (x : X) (n : nat) : skipn n (repeat x n) = [].
Proof.
  apply skipn_all2. rewrite repeat_length. apply Nat.le_refl.
Qed.

(** X4: when the [select] succeeds and at least as many bytes are ready as
    are expected, [expect_data] returns the result of [memcmp] on the
    bytes read, which is 0 exactly when they are the expected bytes: a
    caller has to test the result against 0, not its sign. *)
Theorem expect_data_compares (fd : Z) (w : world) (data : list Z)
  (s : Z) ss ready rest :
  selects (env w) = s :: ss ->
  0 <= s ->
  reads (env w) = Some ready :: rest ->
  (List.length data <= List.length ready)%nat ->
  fst (expect_data fd data (Z.of_nat (List.length data)) w) =
    Val (memcmp (firstn (List.length data) ready) data (List.length data)) /\
  (memcmp (firstn (List.length data) ready) data (List.length data) = 0 <->
   firstn (List.length data) ready = data).
Proof.
  intros Hs Hpos Hr Hlen.
  assert (Hneg : (s <? 0) = false) by (apply Z.ltb_ge; exact Hpos).
  assert (Hgot : List.length (firstn (List.length data) ready)
                 = List.length data).
  { rewrite length_firstn. lia. }
  split.
  - unfold expect_data, indeterminate. unfold bind at 1. unfold gets at 1.
    cbv beta iota.
    destruct (receive_ready fd
                (repeat (to_u8 (indet w))
                   (Z.to_nat (Z.of_nat (List.length data))))
                (Z.of_nat (List.length data)) w s ss ready rest Hs Hneg Hr)
      as (Hfst & _).
    unfold bind.
    destruct (receive fd
                (repeat (to_u8 (indet w))
                   (Z.to_nat (Z.of_nat (List.length data))))
                (Z.of_nat (List.length data)) w) as [o w1].
    simpl in Hfst. subst o. cbv beta iota. simpl fst. simpl snd.
    rewrite Nat2Z.id.
    assert (E : (Z.of_nat (List.length (firstn (List.length data) ready)) <? 0)
                = false) by (apply Z.ltb_ge; lia).
    rewrite E.
    unfold store_bytes. rewrite Hgot, skipn_repeat_all, app_nil_r.
    unfold _d, emit, modify, pure.
    destruct (negb (memcmp (firstn (List.length data) ready) data
                      (List.length data) =? 0)); reflexivity.
  - rewrite memcmp_zero_iff by lia.
    rewrite firstn_firstn, Nat.min_id, (firstn_all data). reflexivity.
Qed.

Lemma expect_data_compares_witness :
  selects (env (rx_world [1] [Some [0x00; 0xAA; 0x07]])) = 1 :: [] /\
  0 <= 1 /\
  reads (env (rx_world [1] [Some [0x00; 0xAA; 0x07]])) =
    Some [0x00; 0xAA; 0x07] :: [] /\
  (List.length [0x00; 0xAA] <= List.length [0x00; 0xAA; 0x07])%nat /\
  fst (expect_data 4 [0x00; 0xAA] (Z.of_nat (List.length [0x00; 0xAA]))
         (rx_world [1] [Some [0x00; 0xAA; 0x07]])) =
    Val (memcmp (firstn (List.length [0x00; 0xAA]) [0x00; 0xAA; 0x07])
           [0x00; 0xAA] (List.length [0x00; 0xAA])) /\
  (memcmp (firstn (List.length [0x00; 0xAA]) [0x00; 0xAA; 0x07])
     [0x00; 0xAA] (List.length [0x00; 0xAA]) = 0 <->
   firstn (List.length [0x00; 0xAA]) [0x00; 0xAA; 0x07] = [0x00; 0xAA]).
Proof.
  split; [reflexivity | split; [lia | split; [reflexivity | split; [simpl; lia |]]]].
  apply (expect_data_compares 4 (rx_world [1] [Some [0x00; 0xAA; 0x07]])
           [0x00; 0xAA] 1 [] [0x00; 0xAA; 0x07] []);
    [reflexivity | lia | reflexivity | simpl; lia].
Defined.

Lemma receive_select_failed_run (fd : Z) (buf : list Z) (size : Z)
  (w : world) (s : Z) ss :
  selects (env w) = s :: ss ->
  (s <? 0) = true ->
  receive fd buf size w =
  (Val (s, buf),
   with_trace
     (fun t => t ++ [EvLog LogE "%s: failed to select the fd %d"])
     (with_trace (fun t => t ++ [EvSelect fd s])
        (with_env (set_selects ss) w))).
Proof.
  intros Hs Hneg.
  unfold receive, read_select, sys_select, _e, _d, emit, modify,
    gets, pure, bind, pop.
  rewrite Hs. simpl. rewrite Hneg. reflexivity.
Qed.

(** X5: when the [select] fails, [expect_data] returns its negative
    result and no [read] is made: the chunks that are ready stay ready. *)
Theorem expect_data_select_failed (fd : Z) (w : world) (data : list Z)
  (size s : Z) ss :
  selects (env w) = s :: ss ->
  s < 0 ->
  fst (expect_data fd data size w) = Val s /\
  reads (env (snd (expect_data fd data size w))) = reads (env w) /\
  reads_of (events_since w (snd (expect_data fd data size w))) = [].
Proof.
  intros Hs Hlt.
  assert (Hneg : (s <? 0) = true) by (apply Z.ltb_lt; exact Hlt).
  assert (E : expect_data fd data size w =
              (Val s,
               with_trace (fun t => t ++ [EvLog LogE "failed to receive data"])
                 (with_trace
                    (fun t => t ++ [EvLog LogE "%s: failed to select the fd %d"])
                    (with_trace (fun t => t ++ [EvSelect fd s])
                       (with_env (set_selects ss) w))))).
  { unfold expect_data, indeterminate. unfold bind at 1. unfold gets at 1.
    cbv beta iota. unfold bind at 1.
    rewrite (receive_select_failed_run fd _ size w s ss Hs Hneg).
    cbv beta iota zeta. cbn [fst snd]. rewrite Hneg.
    reflexivity. }
  rewrite E. simpl. repeat split.
  unfold events_since. simpl.
  rewrite <- !app_assoc. rewrite skipn_app, Nat.sub_diag, skipn_all.
  reflexivity.
Qed.

Lemma expect_data_select_failed_witness :
  selects (env (rx_world [-1] [Some [0x01]])) = -1 :: [] /\
  -1 < 0 /\
  fst (expect_data 4 [0x01] 1 (rx_world [-1] [Some [0x01]])) = Val (-1) /\
  reads (env (snd (expect_data 4 [0x01] 1 (rx_world [-1] [Some [0x01]])))) =
    reads (env (rx_world [-1] [Some [0x01]])) /\
  reads_of (events_since (rx_world [-1] [Some [0x01]])
              (snd (expect_data 4 [0x01] 1 (rx_world [-1] [Some [0x01]]))))
    = [].
Proof.
  split; [reflexivity | split; [lia |]].
  apply (expect_data_select_failed 4 (rx_world [-1] [Some [0x01]])
           [0x01] 1 (-1) []); [reflexivity | lia].
Defined.

(** ** The link and the chip *)

Ltac unfold_prog :=
  unfold c_ioctl, sys_ioctl, sys_open, sys_write, sys_close, usleep,
    get_link_fd, get_boot_fd, indeterminate, _e, _d, _i, emit, modify,
    gets, pure, goto_fail, returning, bind, pop.

Lemma events_since_more (w : world) (t : list event) (f : script -> script) :
  events_since w (with_trace (fun t0 => t0 ++ t) (with_env f w)) = t.
Proof.
  unfold events_since. simpl.
  rewrite skipn_app, Nat.sub_diag, skipn_all. reflexivity.
Qed.

(** X6: [i9100_link_set_active] never returns a positive value.  With the
    answer [r1] to the first request: a negative [r1] is returned as it
    is and nothing more is asked; otherwise the second request is made,
    and its answer [r2] is returned as it is when negative and becomes 0
    when not.  (With no second answer left the function is still
    waiting.) *)
Theorem i9100_link_set_active_not_positive (enabled : bool) (w : world)
  (r1 : Z) rest :
  ioctls (env w) = r1 :: rest ->
  fst (i9100_link_set_active enabled w) =
    (if r1 <? 0 then Val r1
     else match rest with
          | [] => Starved
          | r2 :: _ => Val (if r2 <? 0 then r2 else 0)
          end) /\
  ioctls_of (events_since w (snd (i9100_link_set_active enabled w))) =
    (if r1 <? 0 then [(IOCTL_LINK_CONTROL_ENABLE, r1)]
     else match rest with
          | [] => [(IOCTL_LINK_CONTROL_ENABLE, r1)]
          | r2 :: _ => [(IOCTL_LINK_CONTROL_ENABLE, r1);
                        (IOCTL_LINK_CONTROL_ACTIVE, r2)]
          end) /\
  (forall r, fst (i9100_link_set_active enabled w) = Val r -> r <= 0).
Proof.
  intros E1.
  assert (E : exists t f,
             i9100_link_set_active enabled w =
               ((if r1 <? 0 then Val r1
                 else match rest with
                      | [] => Starved
                      | r2 :: _ => Val (if r2 <? 0 then r2 else 0)
                      end),
                with_trace (fun t0 => t0 ++ t) (with_env f w)) /\
             ioctls_of t =
               (if r1 <? 0 then [(IOCTL_LINK_CONTROL_ENABLE, r1)]
                else match rest with
                     | [] => [(IOCTL_LINK_CONTROL_ENABLE, r1)]
                     | r2 :: _ => [(IOCTL_LINK_CONTROL_ENABLE, r1);
                                   (IOCTL_LINK_CONTROL_ACTIVE, r2)]
                     end)).
  { unfold i9100_link_set_active. unfold_prog. rewrite E1. simpl.
    destruct (r1 <? 0) eqn:N1; simpl; rewrite N1; simpl.
    - exists [EvIoctl (link_fd (glob w)) IOCTL_LINK_CONTROL_ENABLE
                (Some (if enabled then 1 else 0)) r1;
              EvLog LogE "ioctl fd=%d code=%lx failed: %s";
              EvLog LogD "failed to set link state to %d"],
             (set_ioctls rest).
      split; [| reflexivity].
      unfold with_trace, with_env; simpl. rewrite <- !app_assoc. reflexivity.
    - destruct rest as [| r2 rest]; simpl.
      + exists [EvIoctl (link_fd (glob w)) IOCTL_LINK_CONTROL_ENABLE
                  (Some (if enabled then 1 else 0)) r1;
                EvLog LogD "ioctl fd=%d code=%lx OK"],
               (set_ioctls []).
        split; [| reflexivity].
        unfold with_trace, with_env; simpl. rewrite <- !app_assoc.
        reflexivity.
      + destruct (r2 <? 0) eqn:N2; simpl; rewrite N2; simpl.
        * exists [EvIoctl (link_fd (glob w)) IOCTL_LINK_CONTROL_ENABLE
                    (Some (if enabled then 1 else 0)) r1;
                  EvLog LogD "ioctl fd=%d code=%lx OK";
                  EvIoctl (link_fd (glob w)) IOCTL_LINK_CONTROL_ACTIVE
                    (Some (if enabled then 1 else 0)) r2;
                  EvLog LogE "ioctl fd=%d code=%lx failed: %s";
                  EvLog LogD "failed to set link active to %d"],
                 (fun s => set_ioctls rest (set_ioctls (r2 :: rest) s)).
          split; [| reflexivity].
          unfold with_trace, with_env; simpl. rewrite <- !app_assoc.
          reflexivity.
        * exists [EvIoctl (link_fd (glob w)) IOCTL_LINK_CONTROL_ENABLE
                    (Some (if enabled then 1 else 0)) r1;
                  EvLog LogD "ioctl fd=%d code=%lx OK";
                  EvIoctl (link_fd (glob w)) IOCTL_LINK_CONTROL_ACTIVE
                    (Some (if enabled then 1 else 0)) r2;
                  EvLog LogD "ioctl fd=%d code=%lx OK"],
                 (fun s => set_ioctls rest (set_ioctls (r2 :: rest) s)).
          split; [| reflexivity].
          unfold with_trace, with_env; simpl. rewrite <- !app_assoc.
          reflexivity. }
  destruct E as (t & f & E & Hio).
  rewrite E. cbn [fst snd]. rewrite events_since_more.
  split; [reflexivity | split; [exact Hio |]].
  intros r Hr.
  destruct (r1 <? 0) eqn:N1.
  - injection Hr as <-. apply Z.ltb_lt in N1. lia.
  - destruct rest as [| r2 rest']; [discriminate Hr |].
    injection Hr as <-.
    destruct (r2 <? 0) eqn:N2; [apply Z.ltb_lt in N2; lia | lia].
Qed.

Lemma i9100_link_set_active_not_positive_witness :
  ioctls (env (link_world [7; 3])) = 7 :: [3] /\
  fst (i9100_link_set_active true (link_world [7; 3])) =
    (if 7 <? 0 then Val 7
     else match [3] with
          | [] => Starved
          | r2 :: _ => Val (if r2 <? 0 then r2 else 0)
          end) /\
  ioctls_of (events_since (link_world [7; 3])
               (snd (i9100_link_set_active true (link_world [7; 3])))) =
    (if 7 <? 0 then [(IOCTL_LINK_CONTROL_ENABLE, 7)]
     else match [3] with
          | [] => [(IOCTL_LINK_CONTROL_ENABLE, 7)]
          | r2 :: _ => [(IOCTL_LINK_CONTROL_ENABLE, 7);
                        (IOCTL_LINK_CONTROL_ACTIVE, r2)]
          end) /\
  (forall r, fst (i9100_link_set_active true (link_world [7; 3])) = Val r ->
             r <= 0).
Proof.
  split; [reflexivity |].
  apply (i9100_link_set_active_not_positive true (link_world [7; 3]) 7 [3]).
  reflexivity.
Defined.

(** X7: when the first request (enable) fails, [i9100_link_set_active]
    returns its result and does not make the second request (active). *)
Theorem i9100_link_set_active_first_failure (enabled : bool) (w : world)
  (r1 : Z) rest :
  ioctls (env w) = r1 :: rest ->
  r1 < 0 ->
  fst (i9100_link_set_active enabled w) = Val r1 /\
  ioctls (env (snd (i9100_link_set_active enabled w))) = rest /\
  ioctls_of (events_since w (snd (i9100_link_set_active enabled w))) =
    [(IOCTL_LINK_CONTROL_ENABLE, r1)].
Proof.
  intros E1 Hlt. apply Z.ltb_lt in Hlt.
  unfold i9100_link_set_active. unfold_prog.
  rewrite E1. simpl. rewrite Hlt. simpl. rewrite Hlt. simpl.
  repeat split.
  unfold events_since. simpl.
  rewrite <- !app_assoc. rewrite skipn_app, Nat.sub_diag, skipn_all.
  reflexivity.
Qed.

Lemma i9100_link_set_active_first_failure_witness :
  ioctls (env (link_world [-5; 0])) = -5 :: [0] /\
  -5 < 0 /\
  fst (i9100_link_set_active true (link_world [-5; 0])) = Val (-5) /\
  ioctls (env (snd (i9100_link_set_active true (link_world [-5; 0])))) = [0] /\
  ioctls_of (events_since (link_world [-5; 0])
               (snd (i9100_link_set_active true (link_world [-5; 0])))) =
    [(IOCTL_LINK_CONTROL_ENABLE, -5)].
Proof.
  split; [reflexivity | split; [lia |]].
  apply (i9100_link_set_active_first_failure true (link_world [-5; 0])
           (-5) [0]); [reflexivity | lia].
Defined.

Lemma events_since_app (w w' : world) (t : list event) :
  trace w' = trace w ++ t -> events_since w w' = t.
Proof.
  intros H. unfold events_since. rewrite H.
  rewrite skipn_app, Nat.sub_diag, skipn_all. reflexivity.
Qed.





(** ** The EHCI power file *)

(** X9: when the power file opens, [i9100_ehci_setpower] offers the one
    character '1' (on) or '0' (off), closes the descriptor exactly once
    whatever [write] answered, and returns that answer as it is, 0
    included. *)
Theorem i9100_ehci_setpower_opened (enabled : bool) (w : world)
  (fd r : Z) rest wrest :
  opens (env w) = fd :: rest ->
  0 <= fd ->
  writes (env w) = r :: wrest ->
  fst (i9100_ehci_setpower enabled w) = Val r /\
  filter is_write (events_since w (snd (i9100_ehci_setpower enabled w))) =
    [EvWrite fd 1
       (firstn (Z.to_nat r) [if enabled then 0x31 else 0x30]) r] /\
  releases (events_since w (snd (i9100_ehci_setpower enabled w))) =
    [EvClose fd].
Proof.
  intros Ho Hfd Hw.
  assert (N : (fd <? 0) = false) by (apply Z.ltb_ge; exact Hfd).
  assert (G : (fd >=? 0) = true) by (apply Z.geb_le; exact Hfd).
  assert (E : exists t,
             i9100_ehci_setpower enabled w =
               (Val r,
                with_trace (fun t0 => t0 ++ t)
                  (with_env (fun s => set_writes wrest (set_opens rest s)) w))
             /\ filter is_write t =
                  [EvWrite fd 1
                     (firstn (Z.to_nat r) [if enabled then 0x31 else 0x30]) r]
             /\ releases t = [EvClose fd]).
  { exists [EvLog LogD "%s: enabled=%d";
            EvOpen I9100_EHCI_PATH fd;
            EvLog LogD "opened EHCI %s: fd=%d";
            EvWrite fd 1
              (firstn (Z.to_nat r) [if enabled then 0x31 else 0x30]) r;
            EvLog (if r <=? 0 then LogE else LogD)
              (if r <=? 0 then "failed to set EHCI power"
               else "set EHCI power");
            EvClose fd].
    split; [| split].
    - unfold i9100_ehci_setpower. unfold_prog. simpl.
      rewrite Ho. simpl. rewrite N. simpl. rewrite Hw. simpl.
      destruct (r <=? 0); simpl; rewrite G; simpl;
        unfold with_trace, with_env; simpl;
        rewrite <- !app_assoc; reflexivity.
    - destruct (r <=? 0); reflexivity.
    - destruct (r <=? 0); reflexivity. }
  destruct E as (t & E & Hwr & Hrel).
  rewrite E. cbn [fst snd].
  rewrite (events_since_app w
             (with_trace (fun t0 => t0 ++ t)
                (with_env (fun s => set_writes wrest (set_opens rest s)) w))
             t eq_refl).
  repeat split; assumption.
Qed.

Lemma i9100_ehci_setpower_opened_witness :
  opens (env (file_world [6] [0])) = 6 :: [] /\
  0 <= 6 /\
  writes (env (file_world [6] [0])) = 0 :: [] /\
  fst (i9100_ehci_setpower true (file_world [6] [0])) = Val 0 /\
  filter is_write
    (events_since (file_world [6] [0])
       (snd (i9100_ehci_setpower true (file_world [6] [0])))) =
    [EvWrite 6 1 (firstn (Z.to_nat 0) [if true then 0x31 else 0x30]) 0] /\
  releases
    (events_since (file_world [6] [0])
       (snd (i9100_ehci_setpower true (file_world [6] [0])))) =
    [EvClose 6].
Proof.
  split; [reflexivity | split; [lia | split; [reflexivity |]]].
  apply (i9100_ehci_setpower_opened true (file_world [6] [0]) 6 0 [] []);
    [reflexivity | lia | reflexivity].
Defined.

(** X10: when the power file does not open, [i9100_ehci_setpower] makes
    no [write] and no [close]; what it returns is the value its
    uninitialised [ret] holds, not the error of [open]. *)
Theorem i9100_ehci_setpower_not_opened (enabled : bool) (w : world)
  (fd : Z) rest :
  opens (env w) = fd :: rest ->
  fd < 0 ->
  fst (i9100_ehci_setpower enabled w) = Val (indet w) /\
  writes (env (snd (i9100_ehci_setpower enabled w))) = writes (env w) /\
  filter is_write (events_since w (snd (i9100_ehci_setpower enabled w))) = [] /\
  releases (events_since w (snd (i9100_ehci_setpower enabled w))) = [].
Proof.
  intros Ho Hfd.
  assert (N : (fd <? 0) = true) by (apply Z.ltb_lt; exact Hfd).
  assert (G : (fd >=? 0) = false).
  { destruct (fd >=? 0) eqn:G; [| reflexivity].
    apply Z.geb_le in G. lia. }
  assert (E : i9100_ehci_setpower enabled w =
              (Val (indet w),
               with_trace
                 (fun t0 => t0 ++ [EvLog LogD "%s: enabled=%d";
                                   EvOpen I9100_EHCI_PATH fd;
                                   EvLog LogE "failed to open EHCI fd"])
                 (with_env (set_opens rest) w))).
  { unfold i9100_ehci_setpower. unfold_prog. simpl.
    rewrite Ho. simpl. rewrite N. simpl. rewrite G. simpl.
    unfold with_trace, with_env; simpl.
    rewrite <- !app_assoc. reflexivity. }
  rewrite E. cbn [fst snd].
  rewrite (events_since_app w
             (with_trace
                (fun t0 => t0 ++ [EvLog LogD "%s: enabled=%d";
                                  EvOpen I9100_EHCI_PATH fd;
                                  EvLog LogE "failed to open EHCI fd"])
                (with_env (set_opens rest) w))
             _ eq_refl).
  repeat split.
Qed.

Lemma i9100_ehci_setpower_not_opened_witness :
  opens (env (file_world [-1] [1])) = -1 :: [] /\
  -1 < 0 /\
  fst (i9100_ehci_setpower true (file_world [-1] [1])) =
    Val (indet (file_world [-1] [1])) /\
  writes (env (snd (i9100_ehci_setpower true (file_world [-1] [1])))) =
    writes (env (file_world [-1] [1])) /\
  filter is_write
    (events_since (file_world [-1] [1])
       (snd (i9100_ehci_setpower true (file_world [-1] [1])))) = [] /\
  releases
    (events_since (file_world [-1] [1])
       (snd (i9100_ehci_setpower true (file_world [-1] [1])))) = [].
Proof.
  split; [reflexivity | split; [lia |]].
  apply (i9100_ehci_setpower_not_opened true (file_world [-1] [1]) (-1) []);
    [reflexivity | lia].
Defined.

(** ** The payload loop and [send_PSI] *)

Lemma psi_write_loop_never_jumps (fuel : nat) (fd ret end_ off : Z) :
  forall start w r,
    fst (psi_write_loop fuel fd ret start end_ off w) <> Jump r.
Proof.
  induction fuel as [| fuel IH]; intros start w r; simpl.
  - discriminate.
  - destruct (start <? end_); [| discriminate].
    unfold get_radio_data, sys_write, emit, modify, gets, pure, bind, pop.
    destruct (writes (env w)) as [| a rest]; simpl; [discriminate |].
    rewrite to_size_t_nonneg. apply IH.
Qed.

Section NoChunkFailure.

Local Hint Resolve sys_read_no_write : emits.

Lemma sys_read_no_chunk_failure (fd size : Z) :
  emits not_chunk_failure (sys_read fd size).
Proof.
  unfold sys_read. emits_step; [emits_step |].
  destruct a as [ready |]; [| emits_auto].
  emits_step; [| emits_auto].
  destruct (skipn (Z.to_nat size) ready); emits_auto.
Qed.

Lemma receive_no_chunk_failure (fd : Z) (buf : list Z) (size : Z) :
  emits not_chunk_failure (receive fd buf size).
Proof.
  unfold receive, read_select, sys_select, _e, _d. emits_auto.
  apply sys_read_no_chunk_failure.
Qed.

Lemma expect_data_no_chunk_failure (fd : Z) (data : list Z) (size : Z) :
  emits not_chunk_failure (expect_data fd data size).
Proof.
  unfold expect_data, indeterminate, _e, _d. emits_auto.
  apply receive_no_chunk_failure.
Qed.

Lemma ack_loop_no_chunk_failure (n : nat) (fd ret : Z) :
  emits not_chunk_failure (ack_loop n fd ret).
Proof.
  induction n as [| n IH]; simpl; unfold indeterminate, _d; emits_auto.
  apply receive_no_chunk_failure.
Qed.

Lemma psi_write_loop_no_chunk_failure (fuel : nat) (fd ret end_ off : Z) :
  forall start,
    emits not_chunk_failure (psi_write_loop fuel fd ret start end_ off).
Proof.
  induction fuel as [| fuel IH]; intros start; simpl.
  - emits_auto.
  - unfold get_radio_data.
    apply emits_if; [| apply emits_pure].
    apply emits_bind; [apply emits_gets | intros m].
    apply emits_bind; [apply emits_gets | intros data].
    apply emits_bind; [unfold sys_write; emits_auto | intros r].
    rewrite to_size_t_nonneg. apply IH.
Qed.

End NoChunkFailure.

(** X11: the payload loop of [send_PSI] never takes its failure exit,
    whatever [write] answers, a negative result included; and [send_PSI]
    never logs the failure of a chunk. *)
Theorem send_PSI_never_reports_chunk_failure :
  (forall fuel fd ret start end_ off w r,
     fst (psi_write_loop fuel fd ret start end_ off w) <> Jump r) /\
  (forall fd w,
     Forall (fun e => is_chunk_failure e = false)
       (events_since w (snd (send_PSI fd w)))).
Proof.
  split.
  - intros fuel fd ret start end_ off w r.
    apply psi_write_loop_never_jumps.
  - intros fd w.
    assert (H : emits not_chunk_failure (send_PSI fd)).
    { unfold send_PSI, sys_write, _d, get_radio_data. emits_auto.
      - apply psi_write_loop_no_chunk_failure.
      - apply ack_loop_no_chunk_failure.
      - apply expect_data_no_chunk_failure.
      - apply expect_data_no_chunk_failure. }
    destruct (H w) as (_ & _ & _ & t & Ht & Ft).
    rewrite (events_since_app w _ t Ht). exact Ft.
Qed.

Lemma bind_pure {A B} (a : A) (f : A -> M B) (w : world) :
  bind (pure a) f w = f a w.
Proof. reflexivity. Qed.

Lemma bind_gets {A B} (g : world -> A) (f : A -> M B) (w : world) :
  bind (gets g) f w = f (g w) w.
Proof. reflexivity. Qed.

Lemma bind_emit {B} (e : event) (f : unit -> M B) (w : world) :
  bind (emit e) f w = f tt (with_trace (fun t => t ++ [e]) w).
Proof. reflexivity. Qed.

Lemma snd_returning (m : M Z) (w : world) :
  snd (returning m w) = snd (m w).
Proof.
  unfold returning. destruct (m w) as [[a | r |] w1]; reflexivity.
Qed.

(** One round of the payload loop that reaches the end of the range. *)
Lemma psi_write_loop_one_shot (fuel : nat) (fd ret start end_ off : Z)
  (w : world) (r : Z) rest :
  (start <? end_) = true ->
  writes (env w) = r :: rest ->
  (to_size_t (start + to_size_t r) <? end_) = false ->
  psi_write_loop (S (S fuel)) fd ret start end_ off w =
  (Val tt,
   with_trace
     (fun t =>
        t ++ [EvWrite fd
                (Z.of_nat
                   (List.length
                      (load_bytes (mem w) (radio_data (glob w) + start)
                         (Z.to_nat (to_size_t (end_ - off))))))
                (firstn (Z.to_nat r)
                   (load_bytes (mem w) (radio_data (glob w) + start)
                      (Z.to_nat (to_size_t (end_ - off)))))
                r])
     (with_env (set_writes rest) w)).
Proof.
  intros Hlt Hw Hge.
  change (psi_write_loop (S (S fuel)) fd ret start end_ off w)
    with ((if start <? end_
           then
             m <- gets mem ;;
             data <- get_radio_data ;;
             r <- sys_write fd
                    (load_bytes m (data + start)
                       (Z.to_nat (to_size_t (end_ - off)))) ;;
             (if to_size_t r <? 0
              then _d "failed to write PSI chunk" ;; goto_fail ret
              else psi_write_loop (S fuel) fd ret
                     (to_size_t (start + to_size_t r)) end_ off)
           else pure tt) w).
  rewrite Hlt. unfold get_radio_data.
  rewrite !bind_gets.
  rewrite (bind_val _ _ _ _ _ (sys_write_val fd _ w r rest Hw)).
  rewrite to_size_t_nonneg.
  change (psi_write_loop (S fuel) fd ret (to_size_t (start + to_size_t r))
            end_ off)
    with (if to_size_t (start + to_size_t r) <? end_
          then
            m <- gets mem ;;
            data <- get_radio_data ;;
            r0 <- sys_write fd
                    (load_bytes m (data + to_size_t (start + to_size_t r))
                       (Z.to_nat (to_size_t (end_ - off)))) ;;
            (if to_size_t r0 <? 0
             then _d "failed to write PSI chunk" ;; goto_fail ret
             else psi_write_loop fuel fd ret
                    (to_size_t (to_size_t (start + to_size_t r)
                                + to_size_t r0)) end_ off)
          else pure tt).
  rewrite Hge. reflexivity.
Qed.

Lemma accepted_on_app (fd : Z) (t1 t2 : list event) :
  accepted_on fd (t1 ++ t2) = accepted_on fd t1 ++ accepted_on fd t2.
Proof. unfold accepted_on. apply flat_map_app. Qed.

Lemma accepted_on_no_write (fd : Z) (t : list event) :
  Forall not_write t -> accepted_on fd t = [].
Proof.
  induction t as [| e t IH]; intros H; [reflexivity |].
  inversion H as [| ? ? He Ht]; subst.
  change (accepted_on fd (e :: t))
    with ((match e with
           | EvWrite fd' _ accepted _ => if fd' =? fd then [accepted] else []
           | _ => []
           end) ++ accepted_on fd t).
  rewrite (IH Ht).
  destruct e; try reflexivity. discriminate He.
Qed.

(** The event of a [write] that takes all of the [n] bytes offered. *)
Lemma whole_chunk_event (fd : Z) (m : memory) (a n : Z) :
  0 <= n ->
  EvWrite fd (Z.of_nat (List.length (load_bytes m a (Z.to_nat n))))
    (firstn (Z.to_nat n) (load_bytes m a (Z.to_nat n))) n =
  EvWrite fd n (load_bytes m a (Z.to_nat n)) n.
Proof.
  intros Hn.
  rewrite load_bytes_length, Z2Nat.id by exact Hn.
  rewrite firstn_all2; [reflexivity |].
  rewrite load_bytes_length. apply Nat.le_refl.
Qed.

(** The state of [send_PSI] when it comes to the checksum, on a channel
    that has taken the header and, in one [write], the whole range. *)
Lemma send_PSI_to_checksum (fd : Z) (w : world) wrest :
  writes (env w) = 4 :: 0xF000 :: wrest ->
  exists (k : Z -> M Z) (w3 : world),
    (forall r, emits not_write (k r)) /\
    snd (send_PSI fd w) =
      snd (bind (sys_write fd [xor_all (psi_range w)]) k w3) /\
    writes (env w3) = wrest /\
    trace w3 =
      trace w ++
      [ EvWrite fd 4 [0x30; 0x00; 0xF0; 0x00] 4;
        EvLog LogD "PSI image [%08x %08x %08x %08x]";
        EvWrite fd 0xF000 (psi_range w) 0xF000 ].
Proof.
  intros Hw.
  unfold send_PSI. rewrite snd_returning.
  cbv zeta.
  rewrite (bind_val _ _ _ _ _ (sys_write_val fd _ w 4 _ Hw)).
  change (negb (4 =? 4)) with false. cbv beta iota.
  rewrite bind_pure. unfold _d at 1. rewrite bind_emit.
  rewrite bind_gets.
  match goal with
  | |- context [psi_write_loop ?n fd 4 ?s ?e ?o] =>
      change n with (S (S (List.length wrest)))
  end.
  match goal with
  | |- context [bind (psi_write_loop ?n fd 4 ?s ?e ?o) ?f ?w2] =>
      rewrite (bind_val _ f w2 _ tt
                 (psi_write_loop_one_shot (List.length wrest) fd 4 s e o w2
                    0xF000 wrest eq_refl eq_refl eq_refl))
  end.
  rewrite bind_gets. unfold get_radio_data. rewrite bind_gets.
  eexists. eexists.
  split; [| split; [| split]].
  2: { rewrite calculateCRC_xor_all. reflexivity. }
  - intros r. unfold _d. emits_auto.
  - reflexivity.
  - repeat first [ rewrite trace_with_trace; cbv beta
                 | rewrite trace_with_env ].
    rewrite <- !app_assoc.
    change (to_size_t
              (to_size_t
                 (length (i9100_radio_parts PSI)
                  + offset (i9100_radio_parts PSI))
               - offset (i9100_radio_parts PSI))) with 0xF000.
    rewrite (whole_chunk_event fd _ _ 0xF000) by lia.
    reflexivity.
Qed.

(** X12: on a channel that takes the header and then, in one [write], all
    it is offered, [send_PSI] transmits the four header bytes, exactly the
    bytes of the first-stage loader's range and then the checksum of that
    range, whatever the image holds and whatever follows. *)
Theorem send_PSI_full_writes (fd : Z) (w : world) (r : Z) rest :
  writes (env w) = 4 :: 0xF000 :: r :: rest ->
  accepted_on fd (events_since w (snd (send_PSI fd w))) =
    [ [0x30; 0x00; 0xF0; 0x00];
      psi_range w;
      firstn (Z.to_nat r) [xor_all (psi_range w)] ].
Proof.
  intros Hw.
  destruct (send_PSI_to_checksum fd w (r :: rest) Hw)
    as (k & w3 & Hk & Hrun & Hw3 & Ht3).
  rewrite Hrun.
  rewrite (bind_val _ _ _ _ _ (sys_write_val fd _ w3 r rest Hw3)).
  destruct (Hk r (with_trace
                    (fun t => t ++ [EvWrite fd
                                      (Z.of_nat (List.length [xor_all (psi_range w)]))
                                      (firstn (Z.to_nat r) [xor_all (psi_range w)])
                                      r])
                    (with_env (set_writes rest) w3)))
    as (_ & _ & _ & post & Hpost & Fpost).
  rewrite trace_with_trace, trace_with_env, Ht3 in Hpost.
  rewrite <- !app_assoc in Hpost.
  rewrite (events_since_app w _ _ Hpost).
  rewrite !accepted_on_app, (accepted_on_no_write fd post Fpost).
  unfold accepted_on. cbn [flat_map app].
  rewrite Z.eqb_refl. reflexivity.
Qed.

Lemma send_PSI_full_writes_witness :
  writes (env good_psi_world) = 4 :: 0xF000 :: 1 :: [] /\
  accepted_on 4 (events_since good_psi_world (snd (send_PSI 4 good_psi_world)))
    = [ [0x30; 0x00; 0xF0; 0x00];
        psi_range good_psi_world;
        firstn (Z.to_nat 1) [xor_all (psi_range good_psi_world)] ].
Proof.
  split; [reflexivity |].
  apply (send_PSI_full_writes 4 good_psi_world 1 []). reflexivity.
Defined.

(** X13: when the [write] of the header does not answer 4, [send_PSI]
    stops there and returns the answer as it is: nothing of the image is
    offered, and an answer from 0 to 3 comes back as a value that is not
    negative. *)
Theorem send_PSI_header_failure (fd : Z) (w : world) (r : Z) rest :
  writes (env w) = r :: rest ->
  r <> 4 ->
  fst (send_PSI fd w) = Val r /\
  writes (env (snd (send_PSI fd w))) = rest /\
  events_since w (snd (send_PSI fd w)) =
    [ EvWrite fd 4 (firstn (Z.to_nat r) [0x30; 0x00; 0xF0; 0x00]) r;
      EvLog LogD "%s: failed to write header, ret %d" ].
Proof.
  intros Hw Hr.
  assert (N : negb (r =? 4) = true).
  { apply negb_true_iff. apply Z.eqb_neq. exact Hr. }
  assert (E : send_PSI fd w =
              (Val r,
               with_trace
                 (fun t => t ++ [EvLog LogD "%s: failed to write header, ret %d"])
                 (with_trace
                    (fun t =>
                       t ++ [EvWrite fd 4
                               (firstn (Z.to_nat r) [0x30; 0x00; 0xF0; 0x00])
                               r])
                    (with_env (set_writes rest) w)))).
  { unfold send_PSI, returning. cbv zeta.
    rewrite (bind_val _ _ _ _ _ (sys_write_val fd _ w r _ Hw)).
    cbv beta. rewrite N.
    unfold _d, goto_fail. unfold bind, emit, modify. reflexivity. }
  rewrite E. cbn [fst snd].
  split; [reflexivity | split; [reflexivity |]].
  apply events_since_app.
  rewrite !trace_with_trace, trace_with_env, <- app_assoc. reflexivity.
Qed.

Lemma send_PSI_header_failure_witness :
  writes (env (psi_world [2] [])) = 2 :: [] /\
  2 <> 4 /\
  fst (send_PSI 4 (psi_world [2] [])) = Val 2 /\
  writes (env (snd (send_PSI 4 (psi_world [2] [])))) = [] /\
  events_since (psi_world [2] []) (snd (send_PSI 4 (psi_world [2] []))) =
    [ EvWrite 4 4 (firstn (Z.to_nat 2) [0x30; 0x00; 0xF0; 0x00]) 2;
      EvLog LogD "%s: failed to write header, ret %d" ].
Proof.
  split; [reflexivity | split; [discriminate |]].
  apply (send_PSI_header_failure 4 (psi_world [2] []) 2 []);
    [reflexivity | discriminate].
Defined.

Lemma reads_of_app (t1 t2 : list event) :
  reads_of (t1 ++ t2) = reads_of t1 ++ reads_of t2.
Proof. unfold reads_of. apply filter_app. Qed.

(** The acknowledgment loop on a channel where at least [n] bytes arrive,
    whatever they are and however they are cut into chunks, and every
    [select] succeeds. *)
Lemma ack_loop_run (n : nat) (fd ret : Z) :
  forall (w : world) ss srest (chunks : list (list Z)) rest,
    selects (env w) = ss ++ srest ->
    List.length ss = n ->
    Forall (fun s => 0 <= s) ss ->
    reads (env w) = map Some chunks ++ rest ->
    Forall (fun c => c <> []) chunks ->
    (n <= List.length (List.concat chunks))%nat ->
    exists w' t,
      ack_loop n fd ret w = (Val tt, w') /\
      selects (env w') = srest /\
      trace w' = trace w ++ t /\
      reads_of t = map (byte_read fd) (firstn n (List.concat chunks)).
Proof.
  induction n as [| n IH];
    intros w ss srest chunks rest Hs Hls Hpos Hr Hne Hlen.
  - destruct ss; [| discriminate Hls].
    simpl in Hs. exists w, []. simpl.
    repeat split; try assumption.
    symmetry. apply app_nil_r.
  - destruct ss as [| s ss]; [discriminate Hls |].
    destruct chunks as [| c chunks]; [simpl in Hlen; lia |].
    inversion Hne as [| ? ? Hc Hne']; subst.
    destruct c as [| b c]; [contradiction Hc; reflexivity |].
    inversion Hpos as [| ? ? Hs0 Hpos']; subst.
    injection Hls as Hls.
    assert (N : (s <? 0) = false) by (apply Z.ltb_ge; exact Hs0).
    simpl in Hs, Hr.
    destruct (receive_ready fd [to_u8 (indet w)] 1 w s (ss ++ srest)
                (b :: c) (map Some chunks ++ rest) Hs N Hr)
      as (Hfst & Hsel & Hrd & Htr & _ & _).
    change (firstn (Z.to_nat 1) (b :: c)) with [b] in Hfst, Htr.
    simpl ack_loop. unfold indeterminate. rewrite bind_gets.
    unfold bind at 1.
    destruct (receive fd [to_u8 (indet w)] 1 w) as [o w1].
    cbn [fst snd] in Hfst, Hsel, Hrd, Htr. subst o.
    cbn [fst snd]. change (Z.of_nat (List.length [b]) <? 1) with false.
    cbv iota. unfold _d. rewrite bind_emit.
    destruct (IH (with_trace (fun t => t ++ [EvLog LogD "%02x "]) w1)
                ss srest
                (match c with [] => chunks | _ :: _ => c :: chunks end)
                rest)
      as (w' & t & Hrun & Hsel' & Htr' & Hro).
    + exact Hsel.
    + exact Hls.
    + exact Hpos'.
    + cbn [env with_trace]. rewrite Hrd. unfold after_read.
      change (skipn (Z.to_nat 1) (b :: c)) with c.
      destruct c; reflexivity.
    + destruct c as [| b' c]; [exact Hne' |].
      constructor; [discriminate | exact Hne'].
    + assert (E : List.concat
                    (match c with [] => chunks | _ :: _ => c :: chunks end)
                  = c ++ List.concat chunks) by (destruct c; reflexivity).
      rewrite E. simpl in Hlen. lia.
    + rewrite Hrun. exists w'.
      exists ([EvSelect fd s; EvLog LogD "%s: selected fd %d for %d";
               EvRead fd 1 [b] (Z.of_nat (List.length [b]));
               EvLog LogD "%02x "] ++ t).
      split; [reflexivity |]. split; [exact Hsel' |].
      split.
      * rewrite Htr'. rewrite trace_with_trace, Htr.
        rewrite <- !app_assoc. reflexivity.
      * rewrite reads_of_app, Hro.
        assert (E : List.concat
                      (match c with [] => chunks | _ :: _ => c :: chunks end)
                    = c ++ List.concat chunks) by (destruct c; reflexivity).
        rewrite E. reflexivity.
Qed.

(** X14: the 22 bytes after the checksum are drained, not validated:
    whatever the bytes are and however the channel delivers them (one per
    [read], or several at once), if each of them arrives and every
    [select] succeeds the loop reads them one by one and goes on. *)
Theorem ack_loop_drains_any_bytes (fd ret : Z) (w : world) ss srest
  (chunks : list (list Z)) rest :
  selects (env w) = ss ++ srest ->
  List.length ss = 22%nat ->
  Forall (fun s => 0 <= s) ss ->
  reads (env w) = map Some chunks ++ rest ->
  Forall (fun c => c <> []) chunks ->
  (22 <= List.length (List.concat chunks))%nat ->
  fst (ack_loop 22 fd ret w) = Val tt /\
  selects (env (snd (ack_loop 22 fd ret w))) = srest /\
  reads_of (events_since w (snd (ack_loop 22 fd ret w))) =
    map (byte_read fd) (firstn 22 (List.concat chunks)).
Proof.
  intros Hs Hls Hpos Hr Hne Hlen.
  destruct (ack_loop_run 22 fd ret w ss srest chunks rest
              Hs Hls Hpos Hr Hne Hlen)
    as (w' & t & Hrun & Hsel & Htr & Hro).
  rewrite Hrun. cbn [fst snd].
  split; [reflexivity | split; [exact Hsel |]].
  rewrite (events_since_app w w' t Htr). exact Hro.
Qed.

Lemma ack_loop_drains_any_bytes_witness :
  selects (env drain_world) = repeat 1 22%nat ++ [1] /\
  List.length (repeat 1 22%nat) = 22%nat /\
  Forall (fun s => 0 <= s) (repeat 1 22%nat) /\
  reads (env drain_world) = map Some drain_chunks ++ [] /\
  Forall (fun c => c <> []) drain_chunks /\
  (22 <= List.length (List.concat drain_chunks))%nat /\
  fst (ack_loop 22 4 1 drain_world) = Val tt /\
  selects (env (snd (ack_loop 22 4 1 drain_world))) = [1] /\
  reads_of (events_since drain_world (snd (ack_loop 22 4 1 drain_world))) =
    map (byte_read 4) (firstn 22 (List.concat drain_chunks)).
Proof.
  assert (F : Forall (fun s => 0 <= s) (repeat 1 22%nat)).
  { apply Forall_forall. intros x Hx. apply repeat_spec in Hx. lia. }
  assert (G : Forall (fun c : list Z => c <> []) drain_chunks).
  { unfold drain_chunks. repeat (constructor; [discriminate |]).
    constructor. }
  assert (L : (22 <= List.length (List.concat drain_chunks))%nat).
  { vm_compute. repeat constructor. }
  split; [reflexivity | split; [reflexivity | split; [exact F |]]].
  split; [reflexivity | split; [exact G | split; [exact L |]]].
  apply (ack_loop_drains_any_bytes 4 1 drain_world (repeat 1 22%nat) [1]
           drain_chunks []);
    [reflexivity | reflexivity | exact F | reflexivity | exact G | exact L].
Defined.

(** ** What the payload loop offers *)

Lemma psi_write_loop_offers (fuel : nat) (fd ret end_ off : Z) :
  forall start,
    emits (fun e =>
             offers fd (Z.of_nat (Z.to_nat (to_size_t (end_ - off)))) e)
      (psi_write_loop fuel fd ret start end_ off).
Proof.
  induction fuel as [| fuel IH]; intros start; simpl.
  - emits_auto.
  - unfold get_radio_data.
    apply emits_if; [| apply emits_pure].
    apply emits_bind; [apply emits_gets | intros m].
    apply emits_bind; [apply emits_gets | intros data].
    apply emits_bind; [| intros r].
    + unfold sys_write. emits_auto.
      unfold offers. rewrite load_bytes_length. split; reflexivity.
    + rewrite to_size_t_nonneg. apply IH.
Qed.

(** X15: every [write] of the payload loop offers the same number of
    bytes, [end - offset], on the same descriptor, wherever the cursor
    stands: after a partial write the loop offers the full length again,
    not what is left of the range. *)
Theorem psi_write_loop_offers_full_length (fuel : nat)
  (fd ret start end_ off : Z) (w : world) :
  Forall (offers fd (Z.of_nat (Z.to_nat (to_size_t (end_ - off)))))
    (events_since w (snd (psi_write_loop fuel fd ret start end_ off w))).
Proof.
  destruct (psi_write_loop_offers fuel fd ret end_ off start w)
    as (_ & _ & _ & t & Ht & Ft).
  rewrite (events_since_app w _ t Ht). exact Ft.
Qed.

(** ** The handshake starts only after the link is ready *)

Section Traces.

Variable P : event -> Prop.

Lemma emits_traces {A} (m : M A) : emits P m -> traces P m.
Proof.
  intros Hm w. destruct (Hm w) as (_ & _ & _ & t & Ht & Ft).
  exists t. split; assumption.
Qed.

Lemma traces_with_glob (f : globals -> globals) :
  traces P (modify (with_glob f)).
Proof.
  intros w. exists []. split; [| constructor].
  simpl. symmetry. apply app_nil_r.
Qed.

Lemma traces_bind {A B} (m : M A) (f : A -> M B) :
  traces P m -> (forall a, traces P (f a)) -> traces P (bind m f).
Proof.
  intros Hm Hf w. destruct (Hm w) as (t1 & Ht1 & F1).
  unfold bind. destruct (m w) as [[a | r |] w1]; simpl in *.
  - destruct (Hf a w1) as (t2 & Ht2 & F2).
    exists (t1 ++ t2). split.
    + rewrite Ht2, Ht1. symmetry. apply app_assoc.
    + apply Forall_app. split; assumption.
  - exists t1. split; assumption.
  - exists t1. split; assumption.
Qed.

Lemma traces_if {A} (b : bool) (m1 m2 : M A) :
  traces P m1 -> traces P m2 -> traces P (if b then m1 else m2).
Proof. intros H1 H2. destruct b; assumption. Qed.

End Traces.

Ltac traces_step :=
  lazymatch goal with
  | |- traces _ (bind _ _) => apply traces_bind; [| intros ?]
  | |- traces _ (if _ then _ else _) => apply traces_if
  | |- traces _ (modify (with_glob _)) => apply traces_with_glob
  | |- traces _ _ => apply emits_traces
  end.

Lemma send_PSI_emits_any (fd : Z) : emits (fun _ => True) (send_PSI fd).
Proof.
  unfold send_PSI, sys_write, _d, get_radio_data. emits_auto; try exact I.
  - eapply emits_weaken; [| apply psi_write_loop_offers]. intros e _. exact I.
  - eapply emits_weaken; [| apply ack_loop_no_write]. intros e _. exact I.
  - eapply emits_weaken; [| apply expect_data_no_write]. intros e _. exact I.
  - eapply emits_weaken; [| apply expect_data_no_write]. intros e _. exact I.
Qed.

Lemma receive_emits_any (fd : Z) (buf : list Z) (size : Z) :
  emits (fun _ => True) (receive fd buf size).
Proof.
  eapply emits_weaken; [| apply receive_no_write]. intros e _. exact I.
Qed.

Lemma expect_data_emits_any (fd : Z) (data : list Z) (size : Z) :
  emits (fun _ => True) (expect_data fd data size).
Proof.
  eapply emits_weaken; [| apply expect_data_no_write]. intros e _. exact I.
Qed.

(** The calls of the bring-up make no traffic on the boot channel. *)
Lemma c_ioctl_quiet (fd : Z) (code : ioctl_code) (data : option Z) :
  emits quiet (c_ioctl fd code data).
Proof.
  unfold c_ioctl, sys_ioctl, _e, _d. destruct data; emits_auto.
Qed.

Lemma xmm6260_setpower_quiet (enabled : bool) :
  emits quiet (xmm6260_setpower enabled).
Proof.
  unfold xmm6260_setpower, get_boot_fd. emits_auto; apply c_ioctl_quiet.
Qed.

Lemma i9100_link_set_active_quiet (enabled : bool) :
  emits quiet (i9100_link_set_active enabled).
Proof.
  unfold i9100_link_set_active, get_link_fd, _d. emits_auto;
    apply c_ioctl_quiet.
Qed.

Lemma i9100_ehci_setpower_quiet (enabled : bool) :
  emits quiet (i9100_ehci_setpower enabled).
Proof.
  unfold i9100_ehci_setpower, indeterminate, sys_open, sys_write, sys_close,
    _e, _d.
  emits_auto.
Qed.

Lemma wait_link_loop_quiet (fuel : nat) : emits quiet (wait_link_loop fuel).
Proof.
  induction fuel as [| fuel IH]; simpl.
  - emits_auto.
  - unfold get_link_fd, usleep. emits_auto. apply c_ioctl_quiet.
Qed.

Lemma i9100_wait_link_ready_quiet : emits quiet i9100_wait_link_ready.
Proof.
  unfold i9100_wait_link_ready. emits_auto. apply wait_link_loop_quiet.
Qed.

Lemma cleanup_quiet : emits quiet cleanup.
Proof.
  unfold cleanup, get_radio_data, get_link_fd, get_radio_fd, get_boot_fd,
    sys_munmap, sys_close.
  emits_auto.
Qed.

Lemma seen_power_on_app (t t' : list event) :
  seen_power_on t -> seen_power_on (t ++ t').
Proof.
  intros (fd & r & Hin & Hr). exists fd, r. split; [| exact Hr].
  apply in_or_app. left. exact Hin.
Qed.

Lemma seen_link_ready_app (t t' : list event) :
  seen_link_ready t -> seen_link_ready (t ++ t').
Proof.
  intros (fd & Hin). exists fd. apply in_or_app. left. exact Hin.
Qed.

Lemma seen_power_on_app_r (t t' : list event) :
  seen_power_on t' -> seen_power_on (t ++ t').
Proof.
  intros (fd & r & Hin & Hr). exists fd, r. split; [| exact Hr].
  apply in_or_app. right. exact Hin.
Qed.

Lemma seen_link_ready_app_r (t t' : list event) :
  seen_link_ready t' -> seen_link_ready (t ++ t').
Proof.
  intros (fd & Hin). exists fd. apply in_or_app. right. exact Hin.
Qed.

(** What switching the chip on leaves in the trace. *)
Lemma xmm6260_setpower_on_spec (w : world) :
  exists t,
    trace (snd (xmm6260_setpower true w)) = trace w ++ t /\
    Forall quiet t /\
    forall r, fst (xmm6260_setpower true w) = Val r ->
              In (EvIoctl (boot_fd (glob w)) IOCTL_MODEM_ON None r) t.
Proof.
  unfold xmm6260_setpower. unfold_prog.
  destruct (ioctls (env w)) as [| r rest]; simpl.
  - exists []. split; [symmetry; apply app_nil_r |].
    split; [constructor | intros r H; discriminate H].
  - exists [EvIoctl (boot_fd (glob w)) IOCTL_MODEM_ON None r;
            EvLog (if r <? 0 then LogE else LogD)
              (if r <? 0 then "ioctl fd=%d code=%lx failed: %s"
               else "ioctl fd=%d code=%lx OK")].
    destruct (r <? 0); simpl; rewrite <- app_assoc;
      (split; [reflexivity |]);
      (split; [repeat constructor |]);
      intros r' H; injection H as <-; left; reflexivity.
Qed.

Lemma wait_link_loop_spec (fuel : nat) :
  forall w,
  exists t,
    trace (snd (wait_link_loop fuel w)) = trace w ++ t /\
    Forall quiet t /\
    (fst (wait_link_loop fuel w) = Val tt ->
     In (EvIoctl (link_fd (glob w)) IOCTL_LINK_CONNECTED None 1) t) /\
    (forall r, fst (wait_link_loop fuel w) = Jump r -> r < 0).
Proof.
  induction fuel as [| fuel IH]; intros w.
  - exists []. simpl. split; [symmetry; apply app_nil_r |].
    split; [constructor |].
    split; [intros H; discriminate H | intros r H; discriminate H].
  - simpl. unfold_prog.
    destruct (ioctls (env w)) as [| z rest]; simpl.
    + exists []. split; [symmetry; apply app_nil_r |].
      split; [constructor |].
      split; [intros H; discriminate H | intros r H; discriminate H].
    + destruct (z <? 0) eqn:N; simpl; rewrite N.
      * exists [EvIoctl (link_fd (glob w)) IOCTL_LINK_CONNECTED None z;
                EvLog LogE "ioctl fd=%d code=%lx failed: %s"].
        simpl. rewrite <- app_assoc.
        split; [reflexivity |]. split; [repeat constructor |].
        split; [intros H; discriminate H |].
        intros r H. injection H as <-. apply Z.ltb_lt. exact N.
      * destruct (z =? 1) eqn:E1.
        -- apply Z.eqb_eq in E1. subst z.
           exists [EvIoctl (link_fd (glob w)) IOCTL_LINK_CONNECTED None 1;
                   EvLog LogD "ioctl fd=%d code=%lx OK"].
           simpl. rewrite <- app_assoc.
           split; [reflexivity |]. split; [repeat constructor |].
           split; [intros _; left; reflexivity | intros r H; discriminate H].
        -- match goal with
           | |- context [wait_link_loop fuel ?w1] =>
               destruct (IH w1) as (t & Ht & Fq & Hval & Hjump)
           end.
           exists ([EvIoctl (link_fd (glob w)) IOCTL_LINK_CONNECTED None z;
                    EvLog LogD "ioctl fd=%d code=%lx OK";
                    EvSleep (50 * 1000)] ++ t).
           split.
           { rewrite Ht. simpl. rewrite <- !app_assoc. reflexivity. }
           split.
           { apply Forall_app. split; [repeat constructor | exact Fq]. }
           split.
           { intros H. apply in_or_app. right. apply Hval. exact H. }
           { exact Hjump. }
Qed.

(** What waiting for the link leaves in the trace. *)
Lemma i9100_wait_link_ready_spec (w : world) :
  exists t,
    trace (snd (i9100_wait_link_ready w)) = trace w ++ t /\
    Forall quiet t /\
    forall r, fst (i9100_wait_link_ready w) = Val r -> 0 <= r ->
              In (EvIoctl (link_fd (glob w)) IOCTL_LINK_CONNECTED None 1) t.
Proof.
  destruct (wait_link_loop_spec (S (List.length (ioctls (env w)))) w)
    as (t & Ht & Fq & Hval & Hjump).
  exists t.
  unfold i9100_wait_link_ready, returning.
  rewrite bind_gets. unfold bind, pure.
  destruct (wait_link_loop (S (List.length (ioctls (env w)))) w)
    as [[u | r |] w1]; simpl in *.
  - split; [exact Ht |]. split; [exact Fq |].
    intros r _ _. apply Hval. destruct u. reflexivity.
  - split; [exact Ht |]. split; [exact Fq |].
    intros r' H Hpos. injection H as <-.
    specialize (Hjump r eq_refl). lia.
  - split; [exact Ht |]. split; [exact Fq |].
    intros r H. discriminate H.
Qed.

Lemma bind_abort {A B C} (m : M A) (r : Z) (f : B -> M C) (w : world) :
  bind (bind m (fun _ => goto_fail r)) f w =
  bind m (fun _ => goto_fail r) w.
Proof.
  unfold bind, goto_fail. destruct (m w) as [[a | r' |] w1]; reflexivity.
Qed.

Lemma app_split_quiet (t1 t2 pre : list event) (e : event) post :
  Forall quiet t1 ->
  handshake_event e = true ->
  t1 ++ t2 = pre ++ e :: post ->
  exists x, pre = t1 ++ x.
Proof.
  revert pre. induction t1 as [| a t1 IH]; intros pre Hq He Heq.
  - exists pre. reflexivity.
  - inversion Hq as [| ? ? Ha Hq']; subst.
    destruct pre as [| p pre]; simpl in Heq.
    + injection Heq as -> _. unfold quiet in Ha. congruence.
    + injection Heq as -> Heq.
      destruct (IH pre Hq' He Heq) as (x & ->).
      exists x. reflexivity.
Qed.

Section Phases.

Variable w0 : world.

Lemma phase_powered_quiet (w : world) :
  phase_powered w0 w -> phase_quiet w0 w.
Proof.
  intros (t & Ht & Fq & _). exists t. split; assumption.
Qed.

Lemma quiet_keeps_quiet {A} (m : M A) :
  traces quiet m -> reaches (phase_quiet w0) m (phase_quiet w0).
Proof.
  intros Hm w (t & Ht & Fq).
  destruct (Hm w) as (t' & Ht' & Fq').
  exists (t ++ t'). split.
  - rewrite Ht', Ht. symmetry. apply app_assoc.
  - apply Forall_app. split; assumption.
Qed.

Lemma quiet_keeps_powered {A} (m : M A) :
  traces quiet m -> reaches (phase_powered w0) m (phase_powered w0).
Proof.
  intros Hm w (t & Ht & Fq & Hon).
  destruct (Hm w) as (t' & Ht' & Fq').
  exists (t ++ t'). split; [| split].
  - rewrite Ht', Ht. symmetry. apply app_assoc.
  - apply Forall_app. split; assumption.
  - apply seen_power_on_app. exact Hon.
Qed.

Lemma any_keeps_ready {A} (m : M A) :
  traces (fun _ => True) m -> reaches (phase_ready w0) m (phase_ready w0).
Proof.
  intros Hm w (t1 & t2 & Ht & Fq & Hon & Hrd).
  destruct (Hm w) as (t' & Ht' & _).
  exists t1, (t2 ++ t'). split; [| split; [| split]]; try assumption.
  rewrite Ht', Ht. rewrite <- !app_assoc. reflexivity.
Qed.

Lemma quiet_step {A B} (m : M A) (f : A -> M B) :
  traces quiet m ->
  (forall a, reaches (phase_quiet w0) (f a) (phase_any w0)) ->
  reaches (phase_quiet w0) (bind m f) (phase_any w0).
Proof.
  intros Hm Hf.
  apply reaches_bind with (R := phase_quiet w0).
  - apply quiet_keeps_quiet. exact Hm.
  - exact Hf.
  - intros w Hw. left. exact Hw.
Qed.

Lemma powered_step {A B} (m : M A) (f : A -> M B) :
  traces quiet m ->
  (forall a, reaches (phase_powered w0) (f a) (phase_any w0)) ->
  reaches (phase_powered w0) (bind m f) (phase_any w0).
Proof.
  intros Hm Hf.
  apply reaches_bind with (R := phase_powered w0).
  - apply quiet_keeps_powered. exact Hm.
  - exact Hf.
  - intros w Hw. left. apply phase_powered_quiet. exact Hw.
Qed.

Lemma ready_rest {A} (m : M A) :
  traces (fun _ => True) m -> reaches (phase_ready w0) m (phase_any w0).
Proof.
  intros Hm w Hw. right. apply (any_keeps_ready m Hm w Hw).
Qed.

Lemma quiet_abort {A B C} (m : M A) (r : Z) (f : B -> M C) :
  traces quiet m ->
  reaches (phase_quiet w0) (bind (bind m (fun _ => goto_fail r)) f)
    (phase_any w0).
Proof.
  intros Hm w Hw. rewrite bind_abort. left.
  assert (H : traces quiet (bind m (fun _ => @goto_fail C r))).
  { apply traces_bind; [exact Hm |].
    intros _. apply emits_traces. apply emits_goto_fail. }
  exact (quiet_keeps_quiet _ H w Hw).
Qed.

Lemma powered_abort {A B C} (m : M A) (r : Z) (f : B -> M C) :
  traces quiet m ->
  reaches (phase_powered w0) (bind (bind m (fun _ => goto_fail r)) f)
    (phase_any w0).
Proof.
  intros Hm w Hw.
  apply (quiet_abort m r f Hm w). apply phase_powered_quiet. exact Hw.
Qed.

(** Switching the chip on: the rest of the run starts powered when the
    request succeeded, and quiet all the same when it did not. *)
Lemma power_on_step {B} (k : Z -> M B) :
  (forall r, 0 <= r -> reaches (phase_powered w0) (k r) (phase_any w0)) ->
  (forall r, r < 0 -> reaches (phase_quiet w0) (k r) (phase_any w0)) ->
  reaches (phase_quiet w0) (bind (xmm6260_setpower true) k) (phase_any w0).
Proof.
  intros Hok Hfail w (t0 & Ht0 & Fq0).
  destruct (xmm6260_setpower_on_spec w) as (t & Ht & Fq & Hin).
  unfold bind.
  destruct (xmm6260_setpower true w) as [[r | r |] w1]; simpl in *.
  - destruct (Z_lt_ge_dec r 0) as [Hneg | Hpos].
    + apply (Hfail r Hneg). exists (t0 ++ t). split.
      * rewrite Ht, Ht0. symmetry. apply app_assoc.
      * apply Forall_app. split; assumption.
    + apply (Hok r); [lia |]. exists (t0 ++ t). split; [| split].
      * rewrite Ht, Ht0. symmetry. apply app_assoc.
      * apply Forall_app. split; assumption.
      * apply seen_power_on_app_r.
        exists (boot_fd (glob w)), r. split; [apply Hin; reflexivity | lia].
  - left. exists (t0 ++ t). split.
    + rewrite Ht, Ht0. symmetry. apply app_assoc.
    + apply Forall_app. split; assumption.
  - left. exists (t0 ++ t). split.
    + rewrite Ht, Ht0. symmetry. apply app_assoc.
    + apply Forall_app. split; assumption.
Qed.

(** Waiting for the link: the rest of the run starts ready when the wait
    succeeded. *)
Lemma link_ready_step {B} (k : Z -> M B) :
  (forall r, 0 <= r -> reaches (phase_ready w0) (k r) (phase_any w0)) ->
  (forall r, r < 0 -> reaches (phase_powered w0) (k r) (phase_any w0)) ->
  reaches (phase_powered w0) (bind i9100_wait_link_ready k) (phase_any w0).
Proof.
  intros Hok Hfail w (t0 & Ht0 & Fq0 & Hon).
  destruct (i9100_wait_link_ready_spec w) as (t & Ht & Fq & Hin).
  assert (Hpow : phase_powered w0 (snd (i9100_wait_link_ready w))).
  { exists (t0 ++ t). split; [| split].
    - rewrite Ht, Ht0. symmetry. apply app_assoc.
    - apply Forall_app. split; assumption.
    - apply seen_power_on_app. exact Hon. }
  unfold bind.
  destruct (i9100_wait_link_ready w) as [[r | r |] w1]; simpl in *.
  - destruct (Z_lt_ge_dec r 0) as [Hneg | Hpos].
    + apply (Hfail r Hneg). exact Hpow.
    + apply (Hok r); [lia |].
      exists (t0 ++ t), []. split; [| split; [| split]].
      * rewrite Ht, Ht0. rewrite app_nil_r. symmetry. apply app_assoc.
      * apply Forall_app. split; assumption.
      * apply seen_power_on_app. exact Hon.
      * apply seen_link_ready_app_r.
        exists (link_fd (glob w)). apply (Hin r eq_refl). lia.
  - left. apply phase_powered_quiet. exact Hpow.
  - left. apply phase_powered_quiet. exact Hpow.
Qed.

End Phases.

#[local] Hint Resolve c_ioctl_quiet xmm6260_setpower_quiet
  i9100_link_set_active_quiet i9100_ehci_setpower_quiet
  i9100_wait_link_ready_quiet cleanup_quiet
  send_PSI_emits_any receive_emits_any expect_data_emits_any : emits.

Ltac unfold_main_calls :=
  unfold sys_open, sys_fstat, sys_mmap, sys_write, usleep, indeterminate,
    set_radio_fd, set_radio_data, set_boot_fd, set_link_fd,
    get_radio_fd, get_boot_fd, get_link_fd, _e, _d, _i.

Ltac traces_tac :=
  unfold_main_calls; repeat traces_step; emits_auto; try exact I.

Lemma main_body_phases (w0 : world) :
  reaches (phase_quiet w0) main_body (phase_any w0).
Proof.
  unfold main_body.
  repeat lazymatch goal with
         | |- reaches _ (bind (xmm6260_setpower true) _) _ => fail
         | |- reaches _ (bind _ _) _ =>
             apply quiet_step; [traces_tac | intros ?]
         end.
  apply power_on_step; intros r Hr.
  - assert (N : (r <? 0) = false) by (apply Z.ltb_ge; exact Hr).
    rewrite N.
    apply powered_step; [traces_tac | intros _].
    apply link_ready_step; intros r' Hr'.
    + assert (N' : (r' <? 0) = false) by (apply Z.ltb_ge; exact Hr').
      rewrite N'. apply ready_rest. traces_tac.
    + assert (N' : (r' <? 0) = true) by (apply Z.ltb_lt; exact Hr').
      rewrite N'. apply powered_abort. traces_tac.
  - assert (N : (r <? 0) = true) by (apply Z.ltb_lt; exact Hr).
    rewrite N. apply quiet_abort. traces_tac.
Qed.

Lemma main_phases (w : world) : phase_any w (snd (main w)).
Proof.
  assert (Hc : traces quiet (cleanup ;; pure 0)).
  { apply traces_bind; [apply emits_traces; apply cleanup_quiet |].
    intros _. apply emits_traces. apply emits_pure. }
  assert (Hc' : traces (fun _ => True) (cleanup ;; pure 0)).
  { intros w1. destruct (Hc w1) as (t & Ht & _). exists t.
    split; [exact Ht |]. apply Forall_forall. intros e _. exact I. }
  assert (H0 : phase_quiet w w).
  { exists []. split; [symmetry; apply app_nil_r | constructor]. }
  pose proof (main_body_phases w w H0) as Hb.
  unfold main, then_fail_label.
  destruct (main_body w) as [[u | r |] w1]; simpl in Hb |- *.
  - destruct Hb as [Hq | Hr].
    + left. apply (quiet_keeps_quiet w _ Hc w1 Hq).
    + right. apply (any_keeps_ready w _ Hc' w1 Hr).
  - destruct Hb as [Hq | Hr].
    + left. apply (quiet_keeps_quiet w _ Hc w1 Hq).
    + right. apply (any_keeps_ready w _ Hc' w1 Hr).
  - exact Hb.
Qed.

(** X16: in every run of [main], whatever the environment answers, any
    traffic on the boot channel (a [select], a [read], a [write] of more
    than the one byte the EHCI power file gets) comes after a request to
    switch the chip on that succeeded and after the link reported that it
    is connected. *)
Theorem main_handshake_after_link_ready (w : world) pre (e : event) post :
  trace (snd (main w)) = trace w ++ pre ++ e :: post ->
  handshake_event e = true ->
  (exists fd r, In (EvIoctl fd IOCTL_MODEM_ON None r) pre /\ 0 <= r) /\
  (exists fd, In (EvIoctl fd IOCTL_LINK_CONNECTED None 1) pre).
Proof.
  intros Htrace He.
  destruct (main_phases w) as [(t & Ht & Fq) | (t1 & t2 & Ht & Fq & Hon & Hrd)].
  - rewrite Ht in Htrace. apply app_inv_head in Htrace. subst t.
    apply Forall_app in Fq. destruct Fq as [_ Fq].
    inversion Fq as [| ? ? Hbad _]; subst.
    unfold quiet in Hbad. congruence.
  - rewrite Ht in Htrace. apply app_inv_head in Htrace.
    destruct (app_split_quiet t1 t2 pre e post Fq He Htrace) as (x & ->).
    split.
    + apply (seen_power_on_app t1 x Hon).
    + apply (seen_link_ready_app t1 x Hrd).
Qed.

Lemma main_handshake_after_link_ready_witness :
  short_sync_trace =
    trace short_sync_world ++
    firstn 45 short_sync_trace ++
    EvWrite 4 4 [0x41; 0x54; 0x41] 3 :: skipn 46 short_sync_trace /\
  handshake_event (EvWrite 4 4 [0x41; 0x54; 0x41] 3) = true /\
  (exists fd r,
     In (EvIoctl fd IOCTL_MODEM_ON None r) (firstn 45 short_sync_trace) /\
     0 <= r) /\
  (exists fd,
     In (EvIoctl fd IOCTL_LINK_CONNECTED None 1)
       (firstn 45 short_sync_trace)).
Proof.
  assert (H : trace (snd (main short_sync_world)) =
              trace short_sync_world ++
              firstn 45 short_sync_trace ++
              EvWrite 4 4 [0x41; 0x54; 0x41] 3
                :: skipn 46 short_sync_trace)
    by (vm_compute; reflexivity).
  split; [exact H | split; [reflexivity |]].
  exact (main_handshake_after_link_ready short_sync_world _ _ _ H eq_refl).
Defined.

(** ** The header on the wire *)

(** X17: the header is offered as four bytes, each an unsigned byte, from
    which magic, length and padding are read back: the length as low byte
    plus 256 times high byte, for every length that fits in 16 bits. *)
Theorem psi_header_bytes_round_trip (len : Z) :
  0 <= len <= 65535 ->
  exists lo hi,
    psi_header_bytes (psi_header_init len) = [0x30; lo; hi; 0] /\
    0 <= lo < 256 /\ 0 <= hi < 256 /\
    lo + 256 * hi = len.
Proof.
  intros Hlen.
  exists (len mod 256), (len / 256).
  unfold psi_header_bytes, psi_header_init. cbn [magic hdr_length padding].
  rewrite (to_u16_small len Hlen).
  split; [reflexivity |].
  split; [apply Z.mod_pos_bound; lia |].
  split.
  - split; [apply Z.div_pos; lia | apply Z.div_lt_upper_bound; lia].
  - pose proof (Z.div_mod len 256 ltac:(lia)). lia.
Qed.

Lemma psi_header_bytes_round_trip_witness :
  0 <= 0xF000 <= 65535 /\
  exists lo hi,
    psi_header_bytes (psi_header_init 0xF000) = [0x30; lo; hi; 0] /\
    0 <= lo < 256 /\ 0 <= hi < 256 /\
    lo + 256 * hi = 0xF000.
Proof.
  split; [lia |].
  apply (psi_header_bytes_round_trip 0xF000). lia.
Defined.

(** * Every run comes to its end when the environment gives up *)

Lemma backed_weaken {X} (fail : X) (k k' : Z) (q : list X) :
  k' <= k -> backed fail k q -> backed fail k' q.
Proof.
  intros Hle (l & n & Hq & Hn). exists l, n. split; [exact Hq | lia].
Qed.

Lemma backed_pop {X} (fail : X) (k : Z) (q : list X) :
  0 <= k -> backed fail (1 + k) q ->
  exists x q', q = x :: q' /\ backed fail k q'.
Proof.
  intros Hk (l & n & Hq & Hn). subst q.
  destruct l as [| x l].
  - destruct n as [| n]; [lia |].
    exists fail, (repeat fail n). split; [reflexivity |].
    exists [], n. split; [reflexivity | lia].
  - exists x, (l ++ repeat fail n). split; [reflexivity |].
    exists l, n. split; [reflexivity | lia].
Qed.

Lemma backed_cons {X} (fail x : X) (k : Z) (q : list X) :
  backed fail k q -> backed fail k (x :: q).
Proof.
  intros (l & n & Hq & Hn). subst q.
  exists (x :: l), n. split; [reflexivity | exact Hn].
Qed.

Lemma supplied_weaken (k k' : Z) (w : world) :
  k' <= k -> supplied k w -> supplied k' w.
Proof.
  intros Hle (H1 & H2 & H3 & H4 & H5 & H6 & H7).
  repeat split; eapply backed_weaken; eassumption.
Qed.

Section Runs.

Lemma runs_le {A} (c c' : Z) (m : M A) :
  runs c m -> c <= c' -> runs c' m.
Proof.
  intros Hm Hle. unfold runs in *. intros k w Hk Hs.
  destruct (Hm (k + (c' - c)) w) as (Hns & Hs'); [lia | |].
  - replace (c + (k + (c' - c))) with (c' + k) by lia. exact Hs.
  - split; [exact Hns |]. eapply supplied_weaken; [| exact Hs']. lia.
Qed.

Lemma runs_free {A} (m : M A) :
  (forall w, fst (m w) <> Starved /\ env (snd (m w)) = env w) ->
  runs 0 m.
Proof.
  intros Hm. unfold runs. intros k w Hk Hs.
  destruct (Hm w) as (Hns & He). split; [exact Hns |].
  unfold supplied in *. rewrite He. exact Hs.
Qed.

Lemma runs_pure {A} (a : A) : runs 0 (pure a).
Proof. apply runs_free. intros w. split; [discriminate | reflexivity]. Qed.

Lemma runs_gets {A} (f : world -> A) : runs 0 (gets f).
Proof. apply runs_free. intros w. split; [discriminate | reflexivity]. Qed.

Lemma runs_goto_fail {A} (r : Z) : runs 0 (@goto_fail A r).
Proof. apply runs_free. intros w. split; [discriminate | reflexivity]. Qed.

Lemma runs_emit (e : event) : runs 0 (emit e).
Proof. apply runs_free. intros w. split; [discriminate | reflexivity]. Qed.

Lemma runs_with_glob (f : globals -> globals) : runs 0 (modify (with_glob f)).
Proof. apply runs_free. intros w. split; [discriminate | reflexivity]. Qed.

Lemma runs_bind {A B} (c1 c2 : Z) (m : M A) (f : A -> M B) :
  runs c1 m -> (forall a, runs c2 (f a)) -> 0 <= c2 ->
  runs (c1 + c2) (bind m f).
Proof.
  intros Hm Hf Hc2. unfold runs in *. intros k w Hk Hs.
  destruct (Hm (c2 + k) w) as (Hns & Hs'); [lia | |].
  - replace (c1 + (c2 + k)) with (c1 + c2 + k) by lia. exact Hs.
  - unfold bind. destruct (m w) as [[a | r |] w1]; simpl in *.
    + apply (Hf a); assumption.
    + split; [discriminate |]. eapply supplied_weaken; [| exact Hs']. lia.
    + contradiction Hns. reflexivity.
Qed.

Lemma runs_if {A} (c1 c2 : Z) (b : bool) (m1 m2 : M A) :
  runs c1 m1 -> runs c2 m2 -> runs (Z.max c1 c2) (if b then m1 else m2).
Proof.
  intros H1 H2. destruct b.
  - eapply runs_le; [exact H1 | lia].
  - eapply runs_le; [exact H2 | lia].
Qed.

Lemma runs_returning (c : Z) (m : M Z) : runs c m -> runs c (returning m).
Proof.
  intros Hm. unfold runs in *. intros k w Hk Hs.
  destruct (Hm k w Hk Hs) as (Hns & Hs').
  unfold returning. destruct (m w) as [[a | r |] w1]; simpl in *.
  - split; [discriminate | exact Hs'].
  - split; [discriminate | exact Hs'].
  - contradiction Hns. reflexivity.
Qed.

Lemma runs_then_fail_label {A B} (c1 c2 : Z) (m : M A) (k0 : M B) :
  runs c1 m -> runs c2 k0 -> 0 <= c2 ->
  runs (c1 + c2) (then_fail_label m k0).
Proof.
  intros Hm Hk0 Hc2. unfold runs in *. intros k w Hk Hs.
  destruct (Hm (c2 + k) w) as (Hns & Hs'); [lia | |].
  - replace (c1 + (c2 + k)) with (c1 + c2 + k) by lia. exact Hs.
  - unfold then_fail_label. destruct (m w) as [[a | r |] w1]; simpl in *.
    + apply Hk0; assumption.
    + apply Hk0; assumption.
    + contradiction Hns. reflexivity.
Qed.

End Runs.

(** Taking an answer from a queue that is backed. *)
Ltac runs_pop_tac :=
  unfold runs;
  intros k w Hk (H1 & H2 & H3 & H4 & H5 & H6 & H7);
  unfold pop;
  match goal with
  | |- context [match ?get (env w) with _ => _ end] =>
      match goal with
      | H : backed _ (1 + k) (get (env w)) |- _ =>
          destruct (backed_pop _ k _ Hk H) as (x & q' & Hq & Hb);
          rewrite Hq; simpl;
          split; [discriminate |];
          repeat split; simpl;
          first [ exact Hb
                | eapply backed_weaken; [| eassumption]; lia ]
      end
  end.

Lemma runs_pop_opens : runs 1 (pop opens set_opens).
Proof. runs_pop_tac. Qed.

Lemma runs_pop_fstats : runs 1 (pop fstats set_fstats).
Proof. runs_pop_tac. Qed.

Lemma runs_pop_mmaps : runs 1 (pop mmaps set_mmaps).
Proof. runs_pop_tac. Qed.

Lemma runs_pop_ioctls : runs 1 (pop ioctls set_ioctls).
Proof. runs_pop_tac. Qed.

Lemma runs_pop_writes : runs 1 (pop writes set_writes).
Proof. runs_pop_tac. Qed.

Lemma runs_pop_selects : runs 1 (pop selects set_selects).
Proof. runs_pop_tac. Qed.

Lemma runs_pop_reads : runs 1 (pop reads set_reads).
Proof. runs_pop_tac. Qed.

(** Putting back the bytes a [read] did not take. *)
Lemma runs_push_reads (x : option (list Z)) :
  runs 0 (modify (with_env (fun s => set_reads (x :: reads s) s))).
Proof.
  unfold runs.
  intros k w Hk (H1 & H2 & H3 & H4 & H5 & H6 & H7).
  split; [discriminate |].
  repeat split; simpl; try assumption.
  apply backed_cons. exact H7.
Qed.

Create HintDb runs.

#[local] Hint Resolve runs_pop_opens runs_pop_fstats runs_pop_mmaps
  runs_pop_ioctls runs_pop_writes runs_pop_selects runs_pop_reads : runs.

Ltac runs_step :=
  lazymatch goal with
  | |- runs _ (bind _ _) => eapply runs_bind; [| intros ? |]
  | |- runs _ (pure _) => apply runs_pure
  | |- runs _ (gets _) => apply runs_gets
  | |- runs _ (goto_fail _) => apply runs_goto_fail
  | |- runs _ (emit _) => apply runs_emit
  | |- runs _ (modify (with_glob _)) => apply runs_with_glob
  | |- runs _ (returning _) => apply runs_returning
  | |- runs _ (if _ then _ else _) => eapply runs_if
  end.

Ltac runs_auto :=
  repeat first [ runs_step | solve [eauto with runs nocore] | lia ].

(** A composite call within a declared cost. *)
Ltac runs_within := eapply runs_le; [runs_auto | lia].

Lemma sys_read_runs (fd size : Z) : runs 1 (sys_read fd size).
Proof.
  unfold sys_read.
  replace 1 with (1 + 0) by reflexivity.
  apply runs_bind; [apply runs_pop_reads | intros a | lia].
  destruct a as [ready |].
  - replace 0 with (0 + 0) by reflexivity.
    apply runs_bind; [| intros _; runs_within | lia].
    destruct (skipn (Z.to_nat size) ready).
    + apply runs_pure.
    + apply runs_push_reads.
  - runs_within.
Qed.

#[local] Hint Resolve sys_read_runs : runs.

Lemma receive_runs (fd : Z) (buf : list Z) (size : Z) :
  runs 2 (receive fd buf size).
Proof. unfold receive, read_select, sys_select, _e, _d. runs_within. Qed.

#[local] Hint Resolve receive_runs : runs.

Lemma expect_data_runs (fd : Z) (data : list Z) (size : Z) :
  runs 2 (expect_data fd data size).
Proof. unfold expect_data, indeterminate, _e, _d. runs_within. Qed.

Lemma c_ioctl_runs (fd : Z) (code : ioctl_code) (data : option Z) :
  runs 1 (c_ioctl fd code data).
Proof.
  unfold c_ioctl, sys_ioctl, _e, _d. destruct data; runs_within.
Qed.

#[local] Hint Resolve expect_data_runs c_ioctl_runs : runs.

Lemma xmm6260_setpower_runs (enabled : bool) :
  runs 1 (xmm6260_setpower enabled).
Proof. unfold xmm6260_setpower, get_boot_fd. runs_within. Qed.

Lemma i9100_link_set_active_runs (enabled : bool) :
  runs 2 (i9100_link_set_active enabled).
Proof. unfold i9100_link_set_active, get_link_fd, _d. runs_within. Qed.

Lemma i9100_ehci_setpower_runs (enabled : bool) :
  runs 2 (i9100_ehci_setpower enabled).
Proof.
  unfold i9100_ehci_setpower, indeterminate, sys_open, sys_write, sys_close,
    _e, _d.
  runs_within.
Qed.

Lemma ack_loop_runs (n : nat) (fd ret : Z) :
  runs (2 * Z.of_nat n) (ack_loop n fd ret).
Proof.
  induction n as [| n IH].
  - simpl. apply runs_pure.
  - simpl ack_loop. unfold indeterminate, _d.
    eapply runs_le.
    + eapply runs_bind; [apply runs_gets | intros junk |].
      * eapply runs_bind; [apply receive_runs | intros p |].
        -- eapply runs_if; [runs_auto |].
           eapply runs_bind; [apply runs_emit | intros _; exact IH | lia].
        -- lia.
      * lia.
    + lia.
Qed.

#[local] Hint Resolve xmm6260_setpower_runs i9100_link_set_active_runs
  i9100_ehci_setpower_runs ack_loop_runs : runs.

Lemma set_writes_same (s : script) : set_writes (writes s) s = s.
Proof. destruct s. reflexivity. Qed.

Lemma set_writes_twice (q q' : list Z) (s : script) :
  set_writes q' (set_writes q s) = set_writes q' s.
Proof. reflexivity. Qed.

(** A world whose environment differs from that of a supplied world in one
    queue only, which is backed. *)
Lemma supplied_set_ioctls (k k' : Z) (w w' : world) (q : list Z) :
  supplied k' w -> k <= k' ->
  env w' = set_ioctls q (env w) -> backed (-1) k q ->
  supplied k w'.
Proof.
  intros (H1 & H2 & H3 & H4 & H5 & H6 & H7) Hle He Hq.
  unfold supplied. rewrite He. simpl.
  repeat split; first [exact Hq | eapply backed_weaken; eassumption].
Qed.

Lemma supplied_set_writes (k k' : Z) (w w' : world) (q : list Z) :
  supplied k' w -> k <= k' ->
  env w' = set_writes q (env w) -> backed (-1) k q ->
  supplied k w'.
Proof.
  intros (H1 & H2 & H3 & H4 & H5 & H6 & H7) Hle He Hq.
  unfold supplied. rewrite He. simpl.
  repeat split; first [exact Hq | eapply backed_weaken; eassumption].
Qed.

(** The poll loop ends at the first failure at the latest. *)
Lemma wait_link_loop_runs (fuel : nat) :
  forall w k,
    0 <= k -> supplied (1 + k) w ->
    (List.length (ioctls (env w)) < fuel)%nat ->
    fst (wait_link_loop fuel w) <> Starved /\
    supplied k (snd (wait_link_loop fuel w)).
Proof.
  induction fuel as [| fuel IH]; intros w k Hk Hs Hfuel; [inversion Hfuel |].
  pose proof Hs as (_ & _ & _ & (l & n & Hq & Hn) & _).
  simpl. unfold_prog. rewrite Hq in *.
  destruct l as [| x l].
  - destruct n as [| n]; [lia |].
    simpl. split; [discriminate |].
    eapply (supplied_set_ioctls k (1 + k) w _ (repeat (-1) n) Hs);
      [lia | reflexivity |].
    exists [], n. split; [reflexivity | lia].
  - simpl. destruct (x <? 0) eqn:N; simpl; rewrite N.
    + split; [discriminate |].
      eapply (supplied_set_ioctls k (1 + k) w _ (l ++ repeat (-1) n) Hs);
        [lia | reflexivity |].
      exists l, n. split; [reflexivity | lia].
    + destruct (x =? 1).
      * split; [discriminate |].
        eapply (supplied_set_ioctls k (1 + k) w _ (l ++ repeat (-1) n) Hs);
          [lia | reflexivity |].
        exists l, n. split; [reflexivity | lia].
      * apply IH; [exact Hk | | simpl in *; lia].
        eapply (supplied_set_ioctls (1 + k) (1 + k) w _
                  (l ++ repeat (-1) n) Hs);
          [lia | reflexivity |].
        exists l, n. split; [reflexivity | lia].
Qed.

Lemma i9100_wait_link_ready_runs : runs 1 i9100_wait_link_ready.
Proof.
  unfold runs. intros k w Hk Hs.
  unfold i9100_wait_link_ready, returning. rewrite bind_gets.
  destruct (wait_link_loop_runs (S (List.length (ioctls (env w)))) w k Hk Hs
              (Nat.lt_succ_diag_r _)) as (Hns & Hs').
  unfold bind, pure.
  destruct (wait_link_loop (S (List.length (ioctls (env w)))) w)
    as [[u | r |] w1]; simpl in *.
  - split; [discriminate | exact Hs'].
  - split; [discriminate | exact Hs'].
  - contradiction Hns. reflexivity.
Qed.

#[local] Hint Resolve i9100_wait_link_ready_runs : runs.

(** A failed [write] moves the cursor one byte back, or past the end of
    every range when it stands at 0. *)
Lemma cursor_after_failed_write (start : Z) :
  0 <= start < SIZE_MAX1 ->
  to_size_t (start + to_size_t (-1)) =
  if start =? 0 then SIZE_MAX1 - 1 else start - 1.
Proof.
  intros Hs. pose proof (eq_refl : SIZE_MAX1 = 4294967296) as HM.
  change (to_size_t (-1)) with (SIZE_MAX1 - 1).
  unfold to_size_t.
  destruct (start =? 0) eqn:E.
  - apply Z.eqb_eq in E. subst start. reflexivity.
  - apply Z.eqb_neq in E.
    replace (start + (SIZE_MAX1 - 1)) with (start - 1 + 1 * SIZE_MAX1) by lia.
    rewrite Z_mod_plus_full. apply Z.mod_small. lia.
Qed.

Lemma to_size_t_range (z : Z) : 0 <= to_size_t z < SIZE_MAX1.
Proof.
  unfold to_size_t. apply Z.mod_pos_bound. reflexivity.
Qed.

Section PayloadLoopEnds.

Variables fd ret end_ off : Z.
Hypothesis end_range : 0 <= end_ < SIZE_MAX1.

(** The payload loop on failures only: each moves the cursor one byte
    back until it wraps past the end. *)
Lemma psi_write_loop_on_failures (fuel : nat) :
  forall (n : nat) (start : Z) (w : world),
    writes (env w) = repeat (-1) n ->
    (n < fuel)%nat ->
    0 <= start < SIZE_MAX1 ->
    (start < end_ -> start + 1 <= Z.of_nat n) ->
    exists w' n',
      psi_write_loop fuel fd ret start end_ off w = (Val tt, w') /\
      env w' = set_writes (repeat (-1) n') (env w) /\
      Z.of_nat n = Z.of_nat n' + (if start <? end_ then start + 1 else 0).
Proof.
  pose proof (eq_refl : SIZE_MAX1 = 4294967296) as HM.
  induction fuel as [| fuel IH]; intros n start w Hq Hfuel Hstart Hneed;
    [inversion Hfuel |].
  simpl psi_write_loop.
  destruct (start <? end_) eqn:Hlt.
  - apply Z.ltb_lt in Hlt. specialize (Hneed Hlt).
    destruct n as [| n]; [lia |].
    unfold get_radio_data. rewrite !bind_gets.
    rewrite (bind_val _ _ _ _ _ (sys_write_val fd _ w (-1) (repeat (-1) n) Hq)).
    rewrite to_size_t_nonneg.
    rewrite (cursor_after_failed_write start Hstart).
    match goal with
    | |- context [psi_write_loop fuel fd ret ?s end_ off ?w1] =>
        destruct (IH n s w1) as (w' & n' & Hrun & He & Hn)
    end.
    + reflexivity.
    + lia.
    + destruct (start =? 0) eqn:E; [lia |].
      apply Z.eqb_neq in E. lia.
    + destruct (start =? 0) eqn:E; [lia |].
      apply Z.eqb_neq in E. lia.
    + exists w', n'. split; [exact Hrun |]. split; [exact He |].
      destruct (start =? 0) eqn:E.
      * apply Z.eqb_eq in E. subst start.
        assert (F : (SIZE_MAX1 - 1 <? end_) = false) by (apply Z.ltb_ge; lia).
        rewrite F in Hn. lia.
      * apply Z.eqb_neq in E.
        assert (F : (start - 1 <? end_) = true) by (apply Z.ltb_lt; lia).
        rewrite F in Hn. lia.
  - exists w, n. split; [reflexivity |].
    split; [rewrite <- Hq; symmetry; apply set_writes_same | lia].
Qed.

(** The payload loop ends whatever the channel answers, once the answers
    turn into failures: it takes at most [end_] of them. *)
Lemma psi_write_loop_ends (l : list Z) :
  forall (fuel : nat) (n : nat) (start : Z) (w : world),
    writes (env w) = l ++ repeat (-1) n ->
    (List.length l + n < fuel)%nat ->
    0 <= start < SIZE_MAX1 ->
    end_ <= Z.of_nat n ->
    exists w' l' n',
      psi_write_loop fuel fd ret start end_ off w = (Val tt, w') /\
      env w' = set_writes (l' ++ repeat (-1) n') (env w) /\
      Z.of_nat n <= Z.of_nat n' + end_.
Proof.
  pose proof (eq_refl : SIZE_MAX1 = 4294967296) as HM.
  induction l as [| x l IH]; intros fuel n start w Hq Hfuel Hstart Hn.
  - destruct (psi_write_loop_on_failures fuel n start w Hq Hfuel Hstart)
      as (w' & n' & Hrun & He & Hcount); [lia |].
    exists w', [], n'. split; [exact Hrun |]. split; [exact He |].
    destruct (start <? end_) eqn:Hlt; [apply Z.ltb_lt in Hlt |]; lia.
  - destruct fuel as [| fuel]; [inversion Hfuel |].
    simpl psi_write_loop.
    destruct (start <? end_) eqn:Hlt.
    + unfold get_radio_data. rewrite !bind_gets.
      rewrite (bind_val _ _ _ _ _
                 (sys_write_val fd _ w x (l ++ repeat (-1) n) Hq)).
      rewrite to_size_t_nonneg.
      match goal with
      | |- context [psi_write_loop fuel fd ret ?s end_ off ?w1] =>
          destruct (IH fuel n s w1) as (w' & l' & n' & Hrun & He & Hcount)
      end.
      * reflexivity.
      * simpl in Hfuel. lia.
      * apply to_size_t_range.
      * exact Hn.
      * exists w', l', n'. split; [exact Hrun |]. split; [exact He | exact Hcount].
    + exists w, (x :: l), n. split; [reflexivity |].
      split; [rewrite <- Hq; symmetry; apply set_writes_same | lia].
Qed.

(** The loop with the bound [send_PSI] gives it, followed by the rest of
    the function. *)
Lemma psi_rounds_runs {B} (c : Z) (start : Z) (k0 : unit -> M B) :
  0 <= start < SIZE_MAX1 ->
  0 <= c ->
  (forall u, runs c (k0 u)) ->
  runs (end_ + c)
    (rounds <- gets (fun w => S (List.length (writes (env w)))) ;;
     psi_write_loop rounds fd ret start end_ off ;; k0 tt).
Proof.
  intros Hstart Hc Hk0. unfold runs. intros k w Hk Hs.
  rewrite bind_gets.
  pose proof Hs as (_ & _ & _ & _ & (l & n & Hq & Hn) & _).
  destruct (psi_write_loop_ends l (S (List.length (writes (env w)))) n
              start w Hq)
    as (w' & l' & n' & Hrun & He & Hcount).
  { rewrite Hq, length_app, repeat_length. lia. }
  { exact Hstart. }
  { lia. }
  rewrite (bind_val _ _ _ _ _ Hrun).
  apply (Hk0 tt k w' Hk).
  eapply (supplied_set_writes (c + k) (end_ + c + k) w w' _ Hs);
    [lia | exact He |].
  exists l', n'. split; [reflexivity | lia].
Qed.

End PayloadLoopEnds.

Lemma sys_open_runs (path : string) : runs 1 (sys_open path).
Proof. unfold sys_open. runs_within. Qed.

Lemma sys_fstat_runs (fd : Z) : runs 1 (sys_fstat fd).
Proof. unfold sys_fstat. runs_within. Qed.

Lemma sys_mmap_runs (len fd : Z) : runs 1 (sys_mmap len fd).
Proof. unfold sys_mmap. runs_within. Qed.

Lemma sys_write_runs (fd : Z) (buf : list Z) : runs 1 (sys_write fd buf).
Proof. unfold sys_write. runs_within. Qed.

#[local] Hint Resolve sys_open_runs sys_fstat_runs sys_mmap_runs
  sys_write_runs : runs.

Ltac unfold_free_calls :=
  unfold sys_close, sys_munmap, usleep, _e, _d, _i, indeterminate,
    get_link_fd, get_boot_fd, get_radio_fd, get_radio_data,
    set_link_fd, set_boot_fd, set_radio_fd, set_radio_data.

(** [send_PSI] asks the environment at most 61490 times on a queue: the
    header, at most one failure for each byte of the payload, the
    checksum, 22 acknowledgment bytes and two confirmations. *)
Lemma send_PSI_runs (fd : Z) : runs 61490 (send_PSI fd).
Proof.
  assert (Hend : 0 <= to_size_t (length (i9100_radio_parts PSI) +
                                 offset (i9100_radio_parts PSI)) < SIZE_MAX1)
    by (split; [discriminate | reflexivity]).
  unfold send_PSI. apply runs_returning.
  eapply runs_le.
  - eapply runs_bind; [apply sys_write_runs | intros ret |].
    + eapply runs_bind; [unfold_free_calls; runs_auto | intros _ |].
      * eapply runs_bind; [unfold_free_calls; runs_auto | intros _ |].
        -- eapply (psi_rounds_runs fd ret _ _ Hend 49 _
                     (fun _ => m <- gets mem ;; _)).
           ++ split; [discriminate | reflexivity].
           ++ lia.
           ++ intros u. cbv beta. unfold_free_calls. runs_within.
        -- apply Z.leb_le. reflexivity.
      * apply Z.leb_le. reflexivity.
    + apply Z.leb_le. reflexivity.
  - apply Z.leb_le. reflexivity.
Qed.

#[local] Hint Resolve send_PSI_runs : runs.

(** The statements of [main] before the [fail] label: five handles, seven
    device controls, the greeting and its two answers, the upload and its
    final acknowledgment. *)
Lemma main_body_runs : runs 61513 main_body.
Proof. unfold main_body. unfold_free_calls. runs_within. Qed.

Lemma cleanup_runs : runs 0 (cleanup ;; pure 0).
Proof. unfold cleanup. unfold_free_calls. runs_within. Qed.

Lemma main_runs : runs 61513 main.
Proof.
  unfold main. eapply runs_le.
  - eapply runs_then_fail_label;
      [apply main_body_runs | apply cleanup_runs | lia].
  - lia.
Qed.

(** A script followed by [k] failures of every call is supplied with
    them. *)
Lemma then_failing_supplied (k : nat) (w : world) :
  supplied (Z.of_nat k) (then_failing k w).
Proof.
  unfold supplied, then_failing, backed. simpl.
  repeat split; eexists _, k; (split; [reflexivity | lia]).
Qed.

(** [main] with enough failures behind the script comes to its end. *)
Lemma main_ends (w : world) (k : nat) :
  61513 <= Z.of_nat k -> fst (main (then_failing k w)) <> Starved.
Proof.
  intros Hk.
  apply (main_runs 0 (then_failing k w)); [lia |].
  eapply supplied_weaken; [| apply then_failing_supplied]. lia.
Qed.

(** C10: the exit status of [main] is 0 on every run and tells nothing
    about its success.  Whatever the environment answers, a run that comes
    to its end returns 0, and a run that does not has used up the answers
    it was given.  Every run comes to its end, with status 0, when the
    answers the script gives are followed by failures of each call: every
    loop of the program stops at a failure, and 61513 of them on each
    channel are more than one run can ask for.  The run that uploads the
    loader without an error message and the run that cannot open the image
    return the same status. *)
Theorem main_exit_status_zero :
  (forall w : world,
     match main w with
     | (Val status, _) => status = 0
     | (Jump _, _) => False
     | (Starved, w') => exhausted w'
     end) /\
  (forall (w : world) (k : nat),
     61513 <= Z.of_nat k ->
     fst (main (then_failing k w)) = Val 0) /\
  (fst (main good_world) = Val 0 /\
   errors (trace (snd (main good_world))) = []) /\
  (fst (main no_image_world) = Val 0 /\
   errors (trace (snd (main no_image_world))) =
     ["failed to open radio firmware"%string]).
Proof.
  split; [exact main_status_when_returned |].
  split; [| repeat split; reflexivity].
  intros w k Hk.
  pose proof (main_ends w k Hk) as Hends.
  pose proof (main_status_when_returned (then_failing k w)) as Hstatus.
  destruct (main (then_failing k w)) as [[status | r |] w1]; simpl in *.
  - rewrite Hstatus. reflexivity.
  - contradiction.
  - contradiction Hends. reflexivity.
Qed.

Lemma main_exit_status_zero_witness :
  61513 <= Z.of_nat (Z.to_nat 61513) /\
  fst (main (then_failing (Z.to_nat 61513) good_world)) = Val 0.
Proof.
  split; [lia | apply (proj1 (proj2 main_exit_status_zero)); lia].
Defined.
